(** * weserv::api::utils — geometry, capability and metadata helpers

    A shallow embedding of [src/api/utils/utility.h] and the properties
    its specification states about it.

    Conventions.
    - A C++ [int] is a [Z] in the range of [Int.in_range]; arithmetic on
      it is written with the wrap-around of a 32-bit two's complement
      machine ([Int.sub], [Int.add], ...).
    - A C++ [float] / [double] is a [spec_float] of the binary32 /
      binary64 format (module [F32] / [F64]).
    - A C++ [enum class] is a module holding an inductive type [t].
    - A function that can throw returns an [option]. *)

From Stdlib Require Import ZArith Lia SpecFloat Ascii.
From stdpp Require Import gmap strings list pretty.

Local Open Scope Z_scope.

(** ** Machine integers *)

Module Int.

Definition min_int : Z := -2147483648.
Definition max_int : Z := 2147483647.

Definition in_range (z : Z) : Prop := min_int <= z <= max_int.

(** Two's complement wrap-around into 32 bits. *)
Definition wrap (z : Z) : Z := (z + 2147483648) mod 4294967296 - 2147483648.

Definition add (a b : Z) : Z := wrap (a + b).
Definition sub (a b : Z) : Z := wrap (a - b).
Definition mul (a b : Z) : Z := wrap (a * b).
(** [a / b] on [int] truncates toward zero. *)
Definition div (a b : Z) : Z := wrap (a ÷ b).

End Int.

(** ** Enumerations

    [enums.h] is not among the sources; the enumerations are rebuilt
    from the enumerators that [utility.h] names. *)

Module Position.

(** Modelled from the spec: the enumeration [enums::Position] of the
    missing [enums.h].  The eight anchors named by the case labels of
    [calculate_position], [Centre] (named by the comment of its default
    arm), and [Unlisted] for any further value of the enumeration, which
    the default arm receives as well. *)
Inductive t : Type :=
| TopLeft | Top | TopRight
| Left | Centre | Right
| BottomLeft | Bottom | BottomRight
| Unlisted.

End Position.

(** ** Format capability resolver *)

Module ImageType.

(** Modelled from the spec: the enumeration [enums::ImageType] of the
    missing [enums.h], with the enumerators [utility.h] names. *)
Inductive t : Type :=
| Jpeg | Png | Webp | Tiff | Gif | Svg | Pdf | Heif | Magick | Unknown.

End ImageType.

Module Output.

(** Modelled from the spec: the enumeration [enums::Output] of the
    missing [enums.h].  The seven encodable kinds, and [Unlisted v] for
    a value [v] of the underlying type that is none of them (the result
    of a cast, which the default arm of a switch receives). *)
Inductive t : Type :=
| Jpeg | Png | Webp | Avif | Tiff | Gif | Json
| Unlisted (v : Z).

Definition named : list t := [Jpeg; Png; Webp; Avif; Tiff; Gif; Json].

(** [static_cast<Output>(v)]: the enumerator that [enums.h] declares
    with the value [v] ([decl] gives the declared values), if there is
    one. *)
Definition cast (decl : t → Z) (v : Z) : t :=
  match List.find (λ o, decl o =? v) named with
  | Some o => o
  | None => Unlisted v
  end.

(** Enumerators are declared with pairwise distinct values (they are
    case labels of one switch). *)
Definition distinct (decl : t → Z) : Prop := NoDup (decl <$> named).

End Output.

(** [s.substr(pos)] for [pos <= s.size()]. *)
Fixpoint substr (pos : nat) (s : string) : string :=
  match pos, s with
  | O, _ => s
  | S pos', String _ s' => substr pos' s'
  | S _, EmptyString => EmptyString
  end.

Definition determine_image_extension (output : Output.t) : string :=
  match output with
  | Output.Jpeg => ".jpg"
  | Output.Webp => ".webp"
  | Output.Avif => ".avif"
  | Output.Tiff => ".tiff"
  | Output.Gif => ".gif"
  | Output.Json => ".json"
  | _ => ".png"
  end.

(** The body of the loop of [supported_savers_string] for bit index [i]. *)
Definition savers_step (decl : Output.t → Z) (msk : Z) (result : string) (i : Z)
    : string :=
  let output := Z.shiftl 1 i in
  if negb (Z.land msk output =? 0) then
    let saver := substr 1 (determine_image_extension (Output.cast decl output)) in
    if String.eqb result EmptyString then saver
    else result +:+ ", " +:+ saver
  else result.

(** [for (int i = 1; i <= 7; ++i)], with [n] iterations left. *)
Fixpoint savers_loop (decl : Output.t → Z) (msk : Z) (n : nat) (i : Z)
    (result : string) : string :=
  match n with
  | O => result
  | S n' => savers_loop decl msk n' (i + 1) (savers_step decl msk result i)
  end.

Definition supported_savers_string (decl : Output.t → Z) (msk : Z) : string :=
  savers_loop decl msk 7 1 EmptyString.

(** The bit indices the mask is read at, in ascending order. *)
Definition saver_bits : list Z := [1; 2; 3; 4; 5; 6; 7].

(** The savers a mask selects among the bit indices [bits]: for each set
    bit [i], the extension of the Output value [1 << i] without its dot. *)
Definition savers_of (decl : Output.t → Z) (msk : Z) (bits : list Z) : list string :=
  (λ i, substr 1 (determine_image_extension (Output.cast decl (Z.shiftl 1 i))))
    <$> filter (λ i, Z.testbit msk i = true) bits.

Fixpoint bits_from (i : Z) (n : nat) : list Z :=
  match n with
  | O => []
  | S n' => i :: bits_from (i + 1) n'
  end.

(** An enumeration that declares Jpeg as [1 << 1] and Avif as [1 << 3]. *)
Definition example_output_values (o : Output.t) : Z :=
  match o with
  | Output.Jpeg => 2
  | Output.Png => 4
  | Output.Avif => 8
  | Output.Webp => 16
  | Output.Tiff => 32
  | Output.Gif => 64
  | Output.Json => 128
  | Output.Unlisted v => v
  end.

(** [std::string::rfind(str, pos)]: the highest index not after [pos] at
    which [str] occurs in [s]; [None] is [npos]. *)
Fixpoint rfind_down (s str : string) (i : nat) : option nat :=
  if String.prefix str (substr i s) then Some i
  else match i with
       | O => None
       | S i' => rfind_down s str i'
       end.

Definition rfind (s str : string) (pos : nat) : option nat :=
  if (String.length s <? String.length str)%nat then None
  else rfind_down s str (Nat.min (String.length s - String.length str) pos).

(** [VIPS_VERSION_AT_LEAST], for the libvips version [(vmajor, vminor,
    vmicro)] the build sees. *)
Definition VIPS_VERSION_AT_LEAST (vmajor vminor vmicro : Z) (major minor patch : Z)
    : bool :=
  (major <? vmajor)
  || ((major =? vmajor) && (minor <? vminor))
  || ((major =? vmajor) && (minor =? vminor) && (patch <=? vmicro)).

Definition VIPS_FOREIGN_LOAD_GIF (vmajor vminor vmicro : Z) : string :=
  if VIPS_VERSION_AT_LEAST vmajor vminor vmicro 8 11 0
  then "VipsForeignLoadNsgif"
  else "VipsForeignLoadGif".

Definition determine_image_type (vmajor vminor vmicro : Z) (loader : string)
    : ImageType.t :=
  if decide (rfind loader "VipsForeignLoadJpeg" 0 = Some 0%nat) then ImageType.Jpeg
  else if decide (rfind loader "VipsForeignLoadPng" 0 = Some 0%nat) then ImageType.Png
  else if decide (rfind loader "VipsForeignLoadWebp" 0 = Some 0%nat) then ImageType.Webp
  else if decide (rfind loader "VipsForeignLoadTiff" 0 = Some 0%nat) then ImageType.Tiff
  else if decide (rfind loader (VIPS_FOREIGN_LOAD_GIF vmajor vminor vmicro) 0 = Some 0%nat)
       then ImageType.Gif
  else if decide (rfind loader "VipsForeignLoadSvg" 0 = Some 0%nat) then ImageType.Svg
  else if decide (rfind loader "VipsForeignLoadPdf" 0 = Some 0%nat) then ImageType.Pdf
  else if decide (rfind loader "VipsForeignLoadHeif" 0 = Some 0%nat) then ImageType.Heif
  else if decide (rfind loader "VipsForeignLoadMagick" 0 = Some 0%nat) then ImageType.Magick
  else ImageType.Unknown.

(** The table of loader-name prefixes of the specification, in the order
    the code tries them, for a given active GIF prefix. *)
Definition loader_table (gif : string) : list (string * ImageType.t) :=
  [ ("VipsForeignLoadJpeg", ImageType.Jpeg);
    ("VipsForeignLoadPng", ImageType.Png);
    ("VipsForeignLoadWebp", ImageType.Webp);
    ("VipsForeignLoadTiff", ImageType.Tiff);
    (gif, ImageType.Gif);
    ("VipsForeignLoadSvg", ImageType.Svg);
    ("VipsForeignLoadPdf", ImageType.Pdf);
    ("VipsForeignLoadHeif", ImageType.Heif);
    ("VipsForeignLoadMagick", ImageType.Magick) ].

(** The type of the first entry of the table whose prefix the loader
    name starts with; [Unknown] when there is none. *)
Definition lookup_loader (table : list (string * ImageType.t)) (loader : string)
    : ImageType.t :=
  match List.find (λ entry, String.prefix (fst entry) loader) table with
  | Some entry => snd entry
  | None => ImageType.Unknown
  end.

Definition image_type_id (image_type : ImageType.t) : string :=
  match image_type with
  | ImageType.Jpeg => "jpeg"
  | ImageType.Png => "png"
  | ImageType.Webp => "webp"
  | ImageType.Tiff => "tiff"
  | ImageType.Gif => "gif"
  | ImageType.Svg => "svg"
  | ImageType.Pdf => "pdf"
  | ImageType.Heif => "heif"
  | ImageType.Magick => "magick"
  | ImageType.Unknown => "unknown"
  end.

(** ** Position resolver *)

(** [calculate_position]: [left] and [top] start at 0 and the arm of the
    switch assigns one, both or none of them. *)
Definition calculate_position (in_width in_height out_width out_height : Z)
    (pos : Position.t) : Z * Z :=
  let left := 0 in
  let top := 0 in
  match pos with
  | Position.Top =>
      let left := Int.div (Int.sub out_width in_width) 2 in
      (left, top)
  | Position.Right =>
      let left := Int.sub out_width in_width in
      let top := Int.div (Int.sub out_height in_height) 2 in
      (left, top)
  | Position.Bottom =>
      let left := Int.div (Int.sub out_width in_width) 2 in
      let top := Int.sub out_height in_height in
      (left, top)
  | Position.Left =>
      let top := Int.div (Int.sub out_height in_height) 2 in
      (left, top)
  | Position.TopRight =>
      let left := Int.sub out_width in_width in
      (left, top)
  | Position.BottomRight =>
      let left := Int.sub out_width in_width in
      let top := Int.sub out_height in_height in
      (left, top)
  | Position.BottomLeft =>
      let top := Int.sub out_height in_height in
      (left, top)
  | Position.TopLeft =>
      (left, top)
  | _ =>
      let left := Int.div (Int.sub out_width in_width) 2 in
      let top := Int.div (Int.sub out_height in_height) 2 in
      (left, top)
  end.

(** The anchor table of the specification, over mathematical integers,
    with [÷] the division that truncates toward zero. *)
Definition position_table (inW inH outW outH : Z) (pos : Position.t) : Z * Z :=
  match pos with
  | Position.TopLeft => (0, 0)
  | Position.Top => ((outW - inW) ÷ 2, 0)
  | Position.TopRight => (outW - inW, 0)
  | Position.Left => (0, (outH - inH) ÷ 2)
  | Position.Centre | Position.Unlisted => ((outW - inW) ÷ 2, (outH - inH) ÷ 2)
  | Position.Right => (outW - inW, (outH - inH) ÷ 2)
  | Position.BottomLeft => (0, outH - inH)
  | Position.Bottom => ((outW - inW) ÷ 2, outH - inH)
  | Position.BottomRight => (outW - inW, outH - inH)
  end.

(** ** Evaluation deadline governor *)

(** [VipsProgress]: the two fields the callback reads. *)
Record VipsProgress : Type := mkProgress {
  run : Z;      (* elapsed seconds *)
  percent : Z   (* percent complete *)
}.

(** The backend state the governor reads and writes through a
    [VipsImage]: the kill flag ([vips_image_set_kill]), the progress
    switch ([vips_image_set_progress]), the [time_t] cells allocated on
    the image with [VIPS_NEW] (a pointer to one is its index), the user
    data of the handlers connected to the [eval] signal with
    [image_eval_cb] as callback, and the lines appended to the libvips
    error log ([vips_error]). *)
Record VipsImage : Type := mkImage {
  kill : bool;
  progress_signal : bool;
  cells : list Z;
  eval_handlers : list nat;
  error_log : list string
}.

Definition vips_image_set_kill (image : VipsImage) (k : bool) : VipsImage :=
  mkImage k (progress_signal image) (cells image) (eval_handlers image)
    (error_log image).

Definition vips_image_set_progress (image : VipsImage) (p : bool) : VipsImage :=
  mkImage (kill image) p (cells image) (eval_handlers image) (error_log image).

(** [vips_error(domain, ...)] appends one line, [domain: message]. *)
Definition vips_error (image : VipsImage) (domain message : string) : VipsImage :=
  mkImage (kill image) (progress_signal image) (cells image) (eval_handlers image)
    (error_log image ++ [domain +:+ ": " +:+ message]).

(** [*timeout = v]. *)
Definition store_cell (image : VipsImage) (timeout : nat) (v : Z) : VipsImage :=
  mkImage (kill image) (progress_signal image) (<[timeout := v]> (cells image))
    (eval_handlers image) (error_log image).

(** [VIPS_NEW(image, time_t)]: a fresh cell owned by the image, and the
    pointer to it. *)
Definition VIPS_NEW (image : VipsImage) : VipsImage * nat :=
  (mkImage (kill image) (progress_signal image) (cells image ++ [0])
     (eval_handlers image) (error_log image),
   length (cells image)).

(** [g_signal_connect(image, eval, image_eval_cb, timeout)]. *)
Definition g_signal_connect_eval (image : VipsImage) (timeout : nat) : VipsImage :=
  mkImage (kill image) (progress_signal image) (cells image)
    (eval_handlers image ++ [timeout]) (error_log image).

(** The plural ending the message formats with [%s]. *)
Definition plural (n : Z) : string := if 1 <? n then "s" else EmptyString.

(** The text [vips_error] formats in [image_eval_cb]. *)
Definition timeout_message (timeout : Z) (progress : VipsProgress) : string :=
  "Maximum image processing time of " +:+ pretty timeout +:+ " second"
    +:+ plural timeout +:+ " exceeded with " +:+ pretty (run progress)
    +:+ " second" +:+ plural (run progress)
    +:+ ". Operation was canceled after " +:+ pretty (percent progress)
    +:+ "% completion".

(** [image_eval_cb(image, progress, timeout)]; [timeout] points to a
    cell of the image (a pointer to no cell is never passed: only
    [setup_timeout_handler] registers the callback, with a cell that
    lives as long as the image). *)
Definition image_eval_cb (image : VipsImage) (progress : VipsProgress)
    (timeout : nat) : VipsImage :=
  match cells image !! timeout with
  | Some t =>
      if (0 <? t) && (t <=? run progress) then
        let image := vips_image_set_kill image true in
        let image := vips_error image "weserv" (timeout_message t progress) in
        store_cell image timeout 0
      else image
  | None => image
  end.

Definition setup_timeout_handler (image : VipsImage) (process_timeout : Z)
    : VipsImage :=
  if 0 <? process_timeout then
    let '(image, timeout) := VIPS_NEW image in
    let image := store_cell image timeout process_timeout in
    let image := g_signal_connect_eval image timeout in
    vips_image_set_progress image true
  else image.

(** A run of progress notifications delivered to the callback registered
    with the cell [timeout], oldest first. *)
Definition eval_ticks (image : VipsImage) (timeout : nat)
    (ticks : list VipsProgress) : VipsImage :=
  foldl (λ image progress, image_eval_cb image progress timeout) image ticks.

(** [sub] occurs in [s]. *)
Definition contains (s sub : string) : Prop :=
  ∃ before after : string, s = before +:+ sub +:+ after.

(** An image armed with a budget of 2 seconds in its only cell. *)
Definition armed_2 : VipsImage := mkImage false true [2] [0%nat] [].

Definition tripped_2 : VipsImage :=
  mkImage true true [0] [0%nat]
    ["weserv: Maximum image processing time of 2 seconds exceeded with 2 seconds. Operation was canceled after 50% completion"].


(** ** Multi-page crop reassembler *)

(** A [VImage] as the pipeline that computes it: libvips images are
    lazy, an operation yields a new node over its inputs.  [Decoded] is
    an image as loaded, of the given size; the two operations are the
    ones [crop_multi_page] calls. *)
#[warnings="-register-all"]
Inductive VImage : Type :=
| Decoded (width height : Z)
| ExtractArea (input : VImage) (left top width height : Z)
| ArrayJoin (inputs : list VImage) (across : Z).

(** [arrayjoin] lays its inputs out on a grid of [across] columns whose
    cells are as wide as the widest and as tall as the tallest input. *)
Definition grid_rows (n across : Z) : Z := (n + across - 1) / across.

Fixpoint Xsize (image : VImage) : Z :=
  match image with
  | Decoded width _ => width
  | ExtractArea _ _ _ width _ => width
  | ArrayJoin inputs across => foldr Z.max 0 (List.map Xsize inputs) * across
  end.

Fixpoint Ysize (image : VImage) : Z :=
  match image with
  | Decoded _ height => height
  | ExtractArea _ _ _ _ height => height
  | ArrayJoin inputs across =>
      foldr Z.max 0 (List.map Ysize inputs)
      * grid_rows (Z.of_nat (length inputs)) across
  end.

(** The area libvips accepts for an extraction: inside the image and
    not empty. *)
Definition valid_area (image : VImage) (left top width height : Z) : bool :=
  negb ((Xsize image <? left + width) || (Ysize image <? top + height)
        || (left <? 0) || (top <? 0) || (width <=? 0) || (height <=? 0)).

(** [image.extract_area(left, top, width, height)]; throws on a bad
    area. *)
Definition extract_area (image : VImage) (left top width height : Z)
    : option VImage :=
  if valid_area image left top width height
  then Some (ExtractArea image left top width height)
  else None.

(** [VImage::arrayjoin(pages, across)]; throws on an empty array. *)
Definition arrayjoin (pages : list VImage) (across : Z) : option VImage :=
  match pages with
  | [] => None
  | _ => Some (ArrayJoin pages across)
  end.

(** [page_height * i + top], in [int] arithmetic. *)
Definition page_top (page_height top i : Z) : Z :=
  Int.add (Int.mul page_height i) top.

(** [for (int i = ...; i < n_pages; i++) pages.push_back(...)], with [n]
    iterations left. *)
Fixpoint crop_pages (image : VImage) (left top width height page_height : Z)
    (n : nat) (i : Z) (pages : list VImage) : option (list VImage) :=
  match n with
  | O => Some pages
  | S n' =>
      page ← extract_area image left (page_top page_height top i) width height;
      crop_pages image left top width height page_height n' (i + 1) (pages ++ [page])
  end.

(** [crop_multi_page]. [pages.reserve(n_pages)] throws for a negative
    count. *)
Definition crop_multi_page (image : VImage) (left top width height n_pages
    page_height : Z) : option VImage :=
  if (top =? 0) && (height =? page_height) then
    extract_area image left 0 width (Ysize image)
  else
    if n_pages <? 0 then None
    else
      pages ← crop_pages image left top width height page_height
                (Z.to_nat n_pages) 0 [];
      arrayjoin pages 1.

(** The node is an extraction, not a join. *)
Definition is_extraction (image : VImage) : bool :=
  match image with
  | ExtractArea _ _ _ _ _ => true
  | _ => false
  end.

(** A 30 wide, 120 tall filmstrip: 3 pages of height 40. *)
Definition strip_3x40 : VImage := Decoded 30 120.


(** ** Floating point

    IEEE 754 values and operations as [SpecFloat] defines them, rounding
    to nearest, ties to even. *)

Module F32.

Definition prec : Z := 24.
Definition emax : Z := 128.

(** [static_cast<float>(z)] for an [int] [z]. *)
Definition of_int (z : Z) : spec_float := binary_normalize prec emax z 0 false.

Definition mul : spec_float → spec_float → spec_float := SFmul prec emax.

(** The [float] 0.5. *)
Definition half : spec_float := S754_finite false 8388608 (-24).

(** The [float] 1.0. *)
Definition one : spec_float := S754_finite false 8388608 (-23).

End F32.

Module F64.

Definition prec : Z := 53.
Definition emax : Z := 1024.

(** [static_cast<double>(z)] for an [int] [z]. *)
Definition of_int (z : Z) : spec_float := binary_normalize prec emax z 0 false.

(** A [float] as a [double]: the same value, exactly. *)
Definition of_float (x : spec_float) : spec_float :=
  match x with
  | S754_finite s m e => binary_round prec emax s m e
  | _ => x
  end.

Definition mul : spec_float → spec_float → spec_float := SFmul prec emax.
Definition div : spec_float → spec_float → spec_float := SFdiv prec emax.
Definition sub : spec_float → spec_float → spec_float := SFsub prec emax.
Definition ltb : spec_float → spec_float → bool := SFltb.

(** [std::min(a, b)]: [b] when [b < a], otherwise [a]. *)
Definition min (a b : spec_float) : spec_float := if ltb b a then b else a.

(** The integer nearest to [m * 2^e] for [e < 0], halves rounded up. *)
Definition round_magnitude (m : positive) (e : Z) : Z :=
  let q := Z.shiftr (Zpos m) (- e) in
  let r := Zpos m - Z.shiftl q (- e) in
  if Z.shiftl 1 (- e - 1) <=? r then q + 1 else q.

(** [std::round]: to the nearest integer, halves away from zero. *)
Definition round (x : spec_float) : spec_float :=
  match x with
  | S754_finite s m e =>
      if 0 <=? e then x
      else
        let q := round_magnitude m e in
        binary_normalize prec emax (if s then - q else q) 0 s
  | _ => x
  end.

(** The integer part of a finite value (truncation toward zero). *)
Definition trunc (s : bool) (m : positive) (e : Z) : Z :=
  let a := if 0 <=? e then Z.shiftl (Zpos m) e else Z.shiftr (Zpos m) (- e) in
  if s then - a else a.

End F64.

Section Platform.

(** [static_cast<int>] of a [double] that is a NaN, an infinity, or whose
    integer part no [int] holds is undefined; [cast_overflow] stands for
    what the platform produces then. *)
Variable cast_overflow : spec_float → Z.

(** [static_cast<int>(x)] for a [double] [x]. *)
Definition double_to_int (x : spec_float) : Z :=
  match x with
  | S754_zero _ => 0
  | S754_finite s m e =>
      let z := F64.trunc s m e in
      if (Int.min_int <=? z) && (z <=? Int.max_int) then z else cast_overflow x
  | _ => cast_overflow x
  end.

(** [std::max(a, b)] and [std::min(a, b)]. *)
Definition std_max (a b : Z) : Z := if a <? b then b else a.
Definition std_min (a b : Z) : Z := if b <? a then b else a.

(** [std::clamp(v, lo, hi)], as libstdc++ computes it:
    [std::min(std::max(v, lo), hi)].  The standard asks for [lo <= hi];
    with [hi < lo] this returns [hi]. *)
Definition clamp (v lo hi : Z) : Z := std_min (std_max v lo) hi.

Definition calculate_focal_point (fpx fpy : spec_float)
    (in_width in_height target_width target_height image_width image_height : Z)
    : Z * Z :=
  let ratio_x := F64.div (F64.of_int in_width) (F64.of_int target_width) in
  let ratio_y := F64.div (F64.of_int in_height) (F64.of_int target_height) in
  let factor := F64.min ratio_x ratio_y in
  let center_x := F64.div (F64.of_float (F32.mul fpx (F32.of_int in_width))) factor in
  let center_y := F64.div (F64.of_float (F32.mul fpy (F32.of_int in_height))) factor in
  let left :=
    double_to_int
      (F64.round (F64.sub center_x (F64.div (F64.of_int target_width) (F64.of_int 2)))) in
  let left := clamp left 0 (Int.sub image_width target_width) in
  let top :=
    double_to_int
      (F64.round (F64.sub center_y (F64.div (F64.of_int target_height) (F64.of_int 2)))) in
  let top := clamp top 0 (Int.sub image_height target_height) in
  (left, top).

End Platform.

(** [f] is the smaller of [a] and [b] the way [std::min(a, b)] chooses
    it: one of the two; not above either when both are numbers; and
    [a] when [a] is not above [b] or one of them is not a number. *)
Definition smaller_of (f a b : spec_float) : Prop :=
  (f = a ∨ f = b)
  ∧ (a ≠ S754_nan → b ≠ S754_nan → SFleb f a = true ∧ SFleb f b = true)
  ∧ (SFleb a b = true ∨ a = S754_nan ∨ b = S754_nan → f = a).

(** [z] is the integer nearest to [(-1)^s * m * 2^e], a half going away
    from zero. *)
Definition nearest_integer (s : bool) (m : positive) (e : Z) (z : Z) : Prop :=
  ∃ q : Z,
    0 <= q ∧ z = (if s then - q else q)
    ∧ if 0 <=? e then q = Zpos m * 2 ^ e
      else (2 * q - 1) * 2 ^ (- e) <= 2 * Zpos m < (2 * q + 1) * 2 ^ (- e).

(** [z] is what [static_cast<int>(std::round(x))] gives: the integer
    nearest to [x] when [x] is a number and an [int] holds that integer;
    nothing is said otherwise (the conversion is undefined). *)
Definition rounds_to (x : spec_float) (z : Z) : Prop :=
  match x with
  | S754_zero _ => z = 0
  | S754_finite s m e => ∀ n, nearest_integer s m e n → Int.in_range n → z = n
  | _ => True
  end.

(** [r] is [v] clamped between [lo] and [hi]: the nearer bound when [v]
    is outside, [v] itself when inside; with the bounds inverted
    ([hi < lo]) it is [hi]. *)
Definition clamped (v lo hi r : Z) : Prop :=
  (lo <= hi →
     lo <= r <= hi
     ∧ (v < lo → r = lo) ∧ (hi < v → r = hi) ∧ (lo <= v <= hi → r = v))
  ∧ (hi < lo → r = hi).


(** ** Metadata introspector *)

(** The value of a metadata tag, as the three typed accessors see it.
    [vips_image_get_int] and [vips_image_get_array_int] read a value
    through [g_value_transform], so they also return what a value of
    another type converts to; [vips_image_get_string] reads string
    values only.  Each field is what the accessor returns for the value,
    [None] when it fails. *)
Record GValue : Type := mkGValue {
  as_int : option Z;
  as_string : option string;
  as_array_int : option (list Z)
}.

(** An array of integers stored as such. *)
Definition GArrayInt (l : list Z) : GValue := mkGValue None None (Some l).

Module Header.

(** What the accessors of a [VImage] return: its dimensions, band count,
    the nicknames libvips gives its interpretation and band format
    ([vips_enum_nick]), its horizontal resolution in pixels per
    millimetre, whether it has an alpha channel, and its metadata tags. *)
Record t : Type := make {
  width : Z;
  height : Z;
  bands : Z;
  interpretation_nick : string;
  format_nick : string;
  xres : spec_float;
  has_alpha : bool;
  meta : gmap string GValue
}.

End Header.

Definition VIPS_META_ICC_NAME : string := "icc-profile-data".
Definition VIPS_META_ORIENTATION : string := "orientation".
Definition VIPS_META_N_PAGES : string := "n-pages".
Definition VIPS_META_PAGE_HEIGHT : string := "page-height".

(** [image.get_typeof(name) != 0]: the tag is present. *)
Definition get_typeof (image : Header.t) (name : string) : bool :=
  bool_decide (is_Some (Header.meta image !! name)).

(** The typed accessors throw when the tag is absent or cannot be read
    at the type asked for. *)
Definition get_int (image : Header.t) (name : string) : option Z :=
  match Header.meta image !! name with
  | Some v => as_int v
  | None => None
  end.

Definition get_string (image : Header.t) (name : string) : option string :=
  match Header.meta image !! name with
  | Some v => as_string v
  | None => None
  end.

Definition get_array_int (image : Header.t) (name : string) : option (list Z) :=
  match Header.meta image !! name with
  | Some v => as_array_int v
  | None => None
  end.

Definition has_profile (image : Header.t) : bool :=
  get_typeof image VIPS_META_ICC_NAME.

(** The [double] 1.0 and the [double] nearest to 25.4. *)
Definition double_1 : spec_float := S754_finite false 4503599627370496 (-52).
Definition double_25_4 : spec_float := S754_finite false 7149464408450662 (-48).

Definition has_density (image : Header.t) : bool :=
  F64.ltb double_1 (Header.xres image).

Definition exif_orientation (image : Header.t) : option Z :=
  if get_typeof image VIPS_META_ORIENTATION
  then get_int image VIPS_META_ORIENTATION
  else Some 0.

(** The double quote character, and [R"("key":)"]. *)
Definition dq : string := String (Ascii.ascii_of_nat 34) EmptyString.
Definition key_colon (key : string) : string := dq +:+ key +:+ dq +:+ ":".

Definition bool_text (b : bool) : string := if b then "true" else "false".

(** The loop over the delays: each one, and a comma after all but the
    last. *)
Fixpoint write_delays (json : string) (delays : list Z) : string :=
  match delays with
  | [] => json
  | [delay] => json +:+ pretty delay
  | delay :: rest => write_delays (json +:+ pretty delay +:+ ",") rest
  end.

Section Introspector.

Variable cast_overflow : spec_float → Z.

Definition get_density (image : Header.t) : Z :=
  double_to_int cast_overflow (F64.round (F64.mul (Header.xres image) double_25_4)).

Definition image_to_json (image : Header.t) (image_type : ImageType.t)
    : option string :=
  let json := EmptyString in
  let json :=
    json +:+ "{"
      +:+ key_colon "format" +:+ dq +:+ image_type_id image_type +:+ dq +:+ ","
      +:+ key_colon "width" +:+ pretty (Header.width image) +:+ ","
      +:+ key_colon "height" +:+ pretty (Header.height image) +:+ ","
      +:+ key_colon "space" +:+ dq +:+ Header.interpretation_nick image +:+ dq +:+ ","
      +:+ key_colon "channels" +:+ pretty (Header.bands image) +:+ ","
      +:+ key_colon "depth" +:+ dq +:+ Header.format_nick image +:+ dq +:+ "," in
  let json :=
    if has_density image
    then json +:+ key_colon "density" +:+ pretty (get_density image) +:+ ","
    else json in
  json ←
    (if get_typeof image "jpeg-chroma-subsample" then
       s ← get_string image "jpeg-chroma-subsample";
       Some (json +:+ key_colon "chromaSubsampling" +:+ dq +:+ s +:+ dq +:+ ",")
     else Some json);
  let json :=
    json +:+ key_colon "isProgressive"
      +:+ bool_text (get_typeof image "interlaced") +:+ "," in
  json ←
    (if get_typeof image "palette-bit-depth" then
       z ← get_int image "palette-bit-depth";
       Some (json +:+ key_colon "paletteBitDepth" +:+ pretty z +:+ ",")
     else Some json);
  json ←
    (if get_typeof image VIPS_META_N_PAGES then
       z ← get_int image VIPS_META_N_PAGES;
       Some (json +:+ key_colon "pages" +:+ pretty z +:+ ",")
     else Some json);
  json ←
    (if get_typeof image VIPS_META_PAGE_HEIGHT then
       z ← get_int image VIPS_META_PAGE_HEIGHT;
       Some (json +:+ key_colon "pageHeight" +:+ pretty z +:+ ",")
     else Some json);
  json ←
    (if get_typeof image "loop" then
       z ← get_int image "loop";
       Some (json +:+ key_colon "loop" +:+ pretty z +:+ ",")
     else Some json);
  json ←
    (if get_typeof image "delay" then
       delays ← get_array_int image "delay";
       let json := json +:+ key_colon "delay" +:+ "[" in
       let json := write_delays json delays in
       Some (json +:+ "],")
     else Some json);
  json ←
    (if get_typeof image "heif-primary" then
       z ← get_int image "heif-primary";
       Some (json +:+ key_colon "pagePrimary" +:+ pretty z +:+ ",")
     else Some json);
  orientation ← exif_orientation image;
  Some (json +:+ key_colon "hasProfile" +:+ bool_text (has_profile image) +:+ ","
          +:+ key_colon "hasAlpha" +:+ bool_text (Header.has_alpha image) +:+ ","
          +:+ key_colon "orientation" +:+ pretty orientation +:+ "}").

End Introspector.

(** The keys of the descriptive document, in the order of the
    specification. *)
Inductive JsonKey : Type :=
| KFormat | KWidth | KHeight | KSpace | KChannels | KDepth
| KDensity | KChromaSubsampling | KIsProgressive | KPaletteBitDepth
| KPages | KPageHeight | KLoop | KDelay | KPagePrimary
| KHasProfile | KHasAlpha | KOrientation.

Definition json_keys : list JsonKey :=
  [ KFormat; KWidth; KHeight; KSpace; KChannels; KDepth;
    KDensity; KChromaSubsampling; KIsProgressive; KPaletteBitDepth;
    KPages; KPageHeight; KLoop; KDelay; KPagePrimary;
    KHasProfile; KHasAlpha; KOrientation ].

Definition key_name (k : JsonKey) : string :=
  match k with
  | KFormat => "format" | KWidth => "width" | KHeight => "height"
  | KSpace => "space" | KChannels => "channels" | KDepth => "depth"
  | KDensity => "density" | KChromaSubsampling => "chromaSubsampling"
  | KIsProgressive => "isProgressive" | KPaletteBitDepth => "paletteBitDepth"
  | KPages => "pages" | KPageHeight => "pageHeight" | KLoop => "loop"
  | KDelay => "delay" | KPagePrimary => "pagePrimary"
  | KHasProfile => "hasProfile" | KHasAlpha => "hasAlpha"
  | KOrientation => "orientation"
  end.

(** The backing data of a key is present; the keys without a condition
    are always present. *)
Definition key_present (image : Header.t) (k : JsonKey) : bool :=
  match k with
  | KDensity => has_density image
  | KChromaSubsampling => get_typeof image "jpeg-chroma-subsample"
  | KPaletteBitDepth => get_typeof image "palette-bit-depth"
  | KPages => get_typeof image VIPS_META_N_PAGES
  | KPageHeight => get_typeof image VIPS_META_PAGE_HEIGHT
  | KLoop => get_typeof image "loop"
  | KDelay => get_typeof image "delay"
  | KPagePrimary => get_typeof image "heif-primary"
  | _ => true
  end.

Definition always_present : list JsonKey :=
  [ KFormat; KWidth; KHeight; KSpace; KChannels; KDepth; KIsProgressive;
    KHasProfile; KHasAlpha; KOrientation ].

Definition int_text (o : option Z) : string :=
  match o with
  | Some z => pretty z
  | None => EmptyString
  end.

(** The text of the value of a key. *)
Definition key_value (cast_overflow : spec_float → Z) (image : Header.t)
    (image_type : ImageType.t) (k : JsonKey) : string :=
  match k with
  | KFormat => dq +:+ image_type_id image_type +:+ dq
  | KWidth => pretty (Header.width image)
  | KHeight => pretty (Header.height image)
  | KSpace => dq +:+ Header.interpretation_nick image +:+ dq
  | KChannels => pretty (Header.bands image)
  | KDepth => dq +:+ Header.format_nick image +:+ dq
  | KDensity => pretty (get_density cast_overflow image)
  | KChromaSubsampling =>
      dq +:+ default EmptyString (get_string image "jpeg-chroma-subsample") +:+ dq
  | KIsProgressive => bool_text (get_typeof image "interlaced")
  | KPaletteBitDepth => int_text (get_int image "palette-bit-depth")
  | KPages => int_text (get_int image VIPS_META_N_PAGES)
  | KPageHeight => int_text (get_int image VIPS_META_PAGE_HEIGHT)
  | KLoop => int_text (get_int image "loop")
  | KDelay =>
      "[" +:+ String.concat "," (pretty <$> default [] (get_array_int image "delay"))
          +:+ "]"
  | KPagePrimary => int_text (get_int image "heif-primary")
  | KHasProfile => bool_text (has_profile image)
  | KHasAlpha => bool_text (Header.has_alpha image)
  | KOrientation => int_text (exif_orientation image)
  end.

(** One member of the document, [key:value] with the key quoted. *)
Definition json_member (cast_overflow : spec_float → Z) (image : Header.t)
    (image_type : ImageType.t) (k : JsonKey) : string :=
  key_colon (key_name k) +:+ key_value cast_overflow image image_type k.

(** Every tag a typed accessor reads is, when present, one that accessor
    can read. *)
Definition well_typed (image : Header.t) : Prop :=
  (∀ name, name ∈ ["palette-bit-depth"; VIPS_META_N_PAGES; VIPS_META_PAGE_HEIGHT;
                    "loop"; "heif-primary"; VIPS_META_ORIENTATION] →
           get_typeof image name = true → is_Some (get_int image name))
  ∧ (get_typeof image "jpeg-chroma-subsample" = true →
     is_Some (get_string image "jpeg-chroma-subsample"))
  ∧ (get_typeof image "delay" = true → is_Some (get_array_int image "delay")).

(** The text [s] with each apostrophe replaced by a double quote. *)
Fixpoint with_dquotes (s : string) : string :=
  match s with
  | EmptyString => EmptyString
  | String c s' =>
      String (if Ascii.eqb c "'"%char then Ascii.ascii_of_nat 34 else c)
             (with_dquotes s')
  end.

(** A three-frame animation, 30 wide and 120 tall, at 3 pixels per
    millimetre, whose only optional data are the density and the
    delays. *)
Definition animation : Header.t :=
  Header.make 30 120 4 "srgb" "uchar" (S754_finite false 6755399441055744 (-51)) true
    {[ "delay" := GArrayInt [100; 100; 40] ]}.


(** Each text followed by a comma. *)
Definition with_commas (l : list string) : string :=
  foldr (λ s acc, s +:+ "," +:+ acc) EmptyString l.


(** ** Further functions of [utility.h] *)

(** [VipsAngle], the rotations libvips names. *)
Inductive VipsAngle : Type :=
| VIPS_ANGLE_D0 | VIPS_ANGLE_D90 | VIPS_ANGLE_D180 | VIPS_ANGLE_D270.

(** The number of quarter turns of a rotation. *)
Definition quarter_turns (a : VipsAngle) : Z :=
  match a with
  | VIPS_ANGLE_D0 => 0
  | VIPS_ANGLE_D90 => 1
  | VIPS_ANGLE_D180 => 2
  | VIPS_ANGLE_D270 => 3
  end.

Definition resolve_angle_rotation (angle : Z) : VipsAngle :=
  if angle =? 90 then VIPS_ANGLE_D90
  else if angle =? 180 then VIPS_ANGLE_D180
  else if angle =? 270 then VIPS_ANGLE_D270
  else VIPS_ANGLE_D0.

Definition to_output (image_type : ImageType.t) : Output.t :=
  match image_type with
  | ImageType.Jpeg => Output.Jpeg
  | ImageType.Webp => Output.Webp
  | ImageType.Heif => Output.Avif
  | ImageType.Tiff => Output.Tiff
  | ImageType.Gif => Output.Gif
  | _ => Output.Png
  end.

Definition image_type_eqb (a b : ImageType.t) : bool :=
  match a, b with
  | ImageType.Jpeg, ImageType.Jpeg | ImageType.Png, ImageType.Png
  | ImageType.Webp, ImageType.Webp | ImageType.Tiff, ImageType.Tiff
  | ImageType.Gif, ImageType.Gif | ImageType.Svg, ImageType.Svg
  | ImageType.Pdf, ImageType.Pdf | ImageType.Heif, ImageType.Heif
  | ImageType.Magick, ImageType.Magick | ImageType.Unknown, ImageType.Unknown => true
  | _, _ => false
  end.

Definition support_multi_pages (image_type : ImageType.t) : bool :=
  image_type_eqb image_type ImageType.Webp || image_type_eqb image_type ImageType.Tiff
  || image_type_eqb image_type ImageType.Gif || image_type_eqb image_type ImageType.Pdf
  || image_type_eqb image_type ImageType.Heif || image_type_eqb image_type ImageType.Magick.

Definition support_alpha_channel (image_type : ImageType.t) : bool :=
  image_type_eqb image_type ImageType.Png || image_type_eqb image_type ImageType.Webp
  || image_type_eqb image_type ImageType.Heif || image_type_eqb image_type ImageType.Tiff
  || image_type_eqb image_type ImageType.Gif.

(** The character with the given code. *)
Definition chr (n : nat) : ascii := Ascii.ascii_of_nat n.

(** What [escape_string] writes for one character. *)
Definition escape_char (c : ascii) : string :=
  if Ascii.eqb c (chr 0) then "\u0000"
  else if Ascii.eqb c (chr 1) then "\u0001"
  else if Ascii.eqb c (chr 10) then "\n"
  else if Ascii.eqb c (chr 31) then "\u001f"
  else if Ascii.eqb c (chr 34) then String (chr 92) (String (chr 34) EmptyString)
  else if Ascii.eqb c (chr 92) then String (chr 92) (String (chr 92) EmptyString)
  else String c EmptyString.

(** [escape_string]: the loop over the characters of [s]. *)
Fixpoint escape_string (s : string) : string :=
  match s with
  | EmptyString => EmptyString
  | String c s' => escape_char c +:+ escape_string s'
  end.

(** The six characters [escape_string] rewrites. *)
Definition escaped_chars : list ascii :=
  [chr 0; chr 1; chr 10; chr 31; chr 34; chr 92].

Definition is_escaped_char (c : ascii) : bool :=
  existsb (Ascii.eqb c) escaped_chars.

(** A reader of the escapes [escape_string] writes: a backslash
    introduces [n], a quote, a backslash, or [u0000], [u0001], [u001f];
    [None] for any other sequence. *)
Fixpoint unescape_string (s : string) : option string :=
  match s with
  | EmptyString => Some EmptyString
  | String c s1 =>
      if Ascii.eqb c (chr 92) then
        match s1 with
        | String d s2 =>
            if Ascii.eqb d "n" then String (chr 10) <$> unescape_string s2
            else if Ascii.eqb d (chr 34) then String (chr 34) <$> unescape_string s2
            else if Ascii.eqb d (chr 92) then String (chr 92) <$> unescape_string s2
            else if Ascii.eqb d "u" then
              match s2 with
              | String h1 (String h2 (String h3 (String h4 s6))) =>
                  if Ascii.eqb h1 "0" && Ascii.eqb h2 "0" then
                    if Ascii.eqb h3 "0" && Ascii.eqb h4 "0"
                    then String (chr 0) <$> unescape_string s6
                    else if Ascii.eqb h3 "0" && Ascii.eqb h4 "1"
                    then String (chr 1) <$> unescape_string s6
                    else if Ascii.eqb h3 "1" && Ascii.eqb h4 "f"
                    then String (chr 31) <$> unescape_string s6
                    else None
                  else None
              | _ => None
              end
            else None
        | EmptyString => None
        end
      else String c <$> unescape_string s1
  end.

(** The characters of a string. *)
Fixpoint chars (s : string) : list ascii :=
  match s with
  | EmptyString => []
  | String c s' => c :: chars s'
  end.


(** The pixel of the decoded image that the pixel [(x, y)] of a pipeline
    shows: an extraction shifts by its corner, a join places input [k]
    in cell [k] of its grid, at the top left of the cell.  [None]
    outside the image and in the padding of a cell. *)
Fixpoint source_at (image : VImage) (x y : Z) : option (Z * Z) :=
  match image with
  | Decoded width height =>
      if (0 <=? x) && (x <? width) && (0 <=? y) && (y <? height)
      then Some (x, y) else None
  | ExtractArea input l t w h =>
      if (0 <=? x) && (x <? w) && (0 <=? y) && (y <? h)
      then source_at input (x + l) (y + t) else None
  | ArrayJoin inputs across =>
      let hspacing := foldr Z.max 0 (List.map Xsize inputs) in
      let vspacing := foldr Z.max 0 (List.map Ysize inputs) in
      if (0 <=? x) && (x <? hspacing * across) && (0 <=? y)
      then
        (fix pick (l : list VImage) (k : nat) {struct l} : option (Z * Z) :=
           match l with
           | [] => None
           | page :: l' =>
               match k with
               | O => source_at page (x mod hspacing) (y mod vspacing)
               | S k' => pick l' k'
               end
           end) inputs (Z.to_nat (y / vspacing * across + x / hspacing))
      else None
  end.


(** * Properties *)

(** ** Machine integers *)

Lemma Int_wrap_id (z : Z) : Int.in_range z → Int.wrap z = z.
Proof.
  unfold Int.in_range, Int.min_int, Int.max_int, Int.wrap. intros Hz.
  rewrite Z.mod_small by lia. lia.
Qed.

Lemma Int_wrap_in_range (z : Z) : Int.in_range (Int.wrap z).
Proof.
  unfold Int.in_range, Int.min_int, Int.max_int, Int.wrap.
  pose proof (Z.mod_pos_bound (z + 2147483648) 4294967296). lia.
Qed.

Lemma Int_sub_exact (a b : Z) : Int.in_range (a - b) → Int.sub a b = a - b.
Proof. apply Int_wrap_id. Qed.

Lemma Int_half_exact (z : Z) : Int.in_range z → Int.div z 2 = z ÷ 2.
Proof.
  intros Hz. apply Int_wrap_id. revert Hz.
  unfold Int.in_range, Int.min_int, Int.max_int. intros Hz.
  destruct (Z.le_gt_cases 0 z) as [Hpos|Hneg].
  - rewrite Z.quot_div_nonneg by lia.
    pose proof (Z.div_pos z 2). pose proof (Z.div_le_upper_bound z 2 2147483647).
    lia.
  - pose proof (Z.quot_opp_l z 2).
    assert (Hq : z ÷ 2 = - (- z ÷ 2)) by lia.
    rewrite Hq, Z.quot_div_nonneg by lia.
    pose proof (Z.div_pos (- z) 2). pose proof (Z.div_le_upper_bound (- z) 2 2147483648).
    lia.
Qed.

(** ** Position resolver *)

(** C5. Whenever the two differences [out_width - in_width] and
    [out_height - in_height] are representable (the subtraction does not
    overflow), [calculate_position] returns the offsets of the anchor
    table for each of the nine anchors, and the centred ones for any
    other value; the halving truncates toward zero (an odd negative
    difference of -3 gives -1), and a 50x50 input in a 100x100 output
    gives TopLeft (0,0), Centre (25,25), BottomRight (50,50) and
    Right (50,25). *)
Theorem calculate_position_table :
  ∀ (in_width in_height out_width out_height : Z) (pos : Position.t),
    Int.in_range (out_width - in_width) →
    Int.in_range (out_height - in_height) →
    calculate_position in_width in_height out_width out_height pos
      = position_table in_width in_height out_width out_height pos
    ∧ calculate_position 4 4 1 1 Position.Centre = (-1, -1)
    ∧ calculate_position 50 50 100 100 Position.TopLeft = (0, 0)
    ∧ calculate_position 50 50 100 100 Position.Centre = (25, 25)
    ∧ calculate_position 50 50 100 100 Position.BottomRight = (50, 50)
    ∧ calculate_position 50 50 100 100 Position.Right = (50, 25).
Proof.
  intros inW inH outW outH pos HW HH.
  split; [|repeat split; reflexivity].
  unfold calculate_position, position_table.
  destruct pos;
    rewrite ?Int_sub_exact by assumption;
    rewrite ?Int_half_exact by assumption;
    reflexivity.
Qed.

Lemma calculate_position_table_witness :
  Int.in_range (101 - 50) ∧ Int.in_range (70 - 81)
  ∧ calculate_position 50 81 101 70 Position.Bottom = (25, -11).
Proof.
  assert (H1 : Int.in_range (101 - 50)) by (unfold Int.in_range, Int.min_int, Int.max_int; lia).
  assert (H2 : Int.in_range (70 - 81)) by (unfold Int.in_range, Int.min_int, Int.max_int; lia).
  split; [exact H1|split; [exact H2|]].
  exact (proj1 (calculate_position_table 50 81 101 70 Position.Bottom H1 H2)).
Defined.

(** ** Format capability resolver *)

Lemma string_app_assoc (a b c : string) : (a +:+ b) +:+ c = a +:+ b +:+ c.
Proof.
  induction a as [|x a IH]; [reflexivity|].
  change (String x ((a +:+ b) +:+ c) = String x (a +:+ b +:+ c)).
  rewrite IH. reflexivity.
Qed.

Lemma string_app_nil_r (a : string) : a +:+ EmptyString = a.
Proof.
  induction a as [|x a IH]; [reflexivity|].
  change (String x (a +:+ EmptyString) = String x a).
  rewrite IH. reflexivity.
Qed.

Lemma land_bit_testbit (msk i : Z) :
  0 <= i → negb (Z.land msk (Z.shiftl 1 i) =? 0) = Z.testbit msk i.
Proof.
  intros Hi. rewrite Z.shiftl_1_l.
  destruct (Z.testbit msk i) eqn:Hb.
  - apply negb_true_iff, Z.eqb_neq. intros H0.
    assert (Hc : Z.testbit (Z.land msk (2 ^ i)) i = true).
    { rewrite Z.land_spec, Hb, Z.pow2_bits_true; auto. }
    rewrite H0, Z.bits_0 in Hc. discriminate.
  - apply negb_false_iff, Z.eqb_eq, Z.bits_inj'. intros n Hn.
    rewrite Z.land_spec, Z.bits_0, Z.pow2_bits_eqb by assumption.
    destruct (Z.eqb_spec i n) as [->|]; [rewrite Hb; reflexivity|apply andb_false_r].
Qed.

Lemma saver_nonempty (o : Output.t) :
  substr 1 (determine_image_extension o) ≠ EmptyString.
Proof. destruct o; discriminate. Qed.

Lemma concat_empty_iff (sep : string) (l : list string) :
  Forall (λ x, x ≠ EmptyString) l →
  String.concat sep l = EmptyString → l = [].
Proof.
  intros Hl Hc. destruct Hl as [|x l Hx Hl]; [reflexivity|].
  destruct l; simpl in Hc; [contradiction|].
  destruct x; [contradiction|discriminate].
Qed.

Lemma concat_snoc (sep : string) (l : list string) (x : string) :
  l ≠ [] → String.concat sep (l ++ [x]) = String.concat sep l +:+ sep +:+ x.
Proof.
  induction l as [|y l IH]; [contradiction|]. intros _.
  destruct l as [|z l]; [reflexivity|].
  change (String.concat sep ((y :: z :: l) ++ [x]))
    with (y +:+ sep +:+ String.concat sep ((z :: l) ++ [x])).
  rewrite IH by discriminate.
  change (String.concat sep (y :: z :: l))
    with (y +:+ sep +:+ String.concat sep (z :: l)).
  rewrite !string_app_assoc. reflexivity.
Qed.

Lemma savers_step_concat (decl : Output.t → Z) (msk : Z) (acc : list string) (i : Z) :
  0 <= i →
  Forall (λ x, x ≠ EmptyString) acc →
  savers_step decl msk (String.concat ", " acc) i
    = String.concat ", " (acc ++ savers_of decl msk [i]).
Proof.
  intros Hi Hacc. unfold savers_step, savers_of. cbv zeta.
  rewrite land_bit_testbit by assumption.
  rewrite filter_cons, filter_nil.
  destruct (decide (Z.testbit msk i = true)) as [Hb|Hb].
  - rewrite Hb. cbn [fmap list_fmap].
    destruct (String.eqb_spec (String.concat ", " acc) EmptyString) as [He|He].
    + apply concat_empty_iff in He; [|assumption]. subst acc. reflexivity.
    + rewrite concat_snoc; [reflexivity|]. intros ->. apply He. reflexivity.
  - apply not_true_is_false in Hb. rewrite Hb. cbn [fmap list_fmap].
    rewrite app_nil_r. reflexivity.
Qed.

Lemma savers_of_nonempty (decl : Output.t → Z) (msk : Z) (bits : list Z) :
  Forall (λ x, x ≠ EmptyString) (savers_of decl msk bits).
Proof.
  unfold savers_of. apply Forall_fmap, Forall_forall.
  intros i _. apply saver_nonempty.
Qed.

Lemma savers_of_cons (decl : Output.t → Z) (msk : Z) (i : Z) (bits : list Z) :
  savers_of decl msk (i :: bits) = savers_of decl msk [i] ++ savers_of decl msk bits.
Proof.
  unfold savers_of. change (i :: bits) with ([i] ++ bits).
  rewrite filter_app, fmap_app. reflexivity.
Qed.

Lemma savers_loop_concat (decl : Output.t → Z) (msk : Z) (n : nat) :
  ∀ (i : Z) (acc : list string),
    0 <= i →
    Forall (λ x, x ≠ EmptyString) acc →
    savers_loop decl msk n i (String.concat ", " acc)
      = String.concat ", " (acc ++ savers_of decl msk (bits_from i n)).
Proof.
  induction n as [|n IH]; intros i acc Hi Hacc.
  - simpl. rewrite app_nil_r. reflexivity.
  - cbn [savers_loop bits_from].
    rewrite savers_step_concat by assumption.
    rewrite IH; [|lia|].
    + rewrite (savers_of_cons decl msk i (bits_from (i + 1) n)), app_assoc. reflexivity.
    + apply Forall_app. split; [assumption|apply savers_of_nonempty].
Qed.

Lemma find_distinct_value {A : Type} (f : A → Z) (l : list A) (o : A) :
  NoDup (f <$> l) → o ∈ l → List.find (λ x, f x =? f o) l = Some o.
Proof.
  induction l as [|a l IH]; intros Hd Ho.
  - inversion Ho.
  - rewrite fmap_cons in Hd. apply NoDup_cons in Hd as [Hn Hd].
    cbn [List.find]. apply elem_of_cons in Ho.
    destruct (Z.eqb_spec (f a) (f o)) as [Heq|Hne].
    + destruct Ho as [->|Ho]; [reflexivity|].
      exfalso. apply Hn. rewrite Heq. apply list_elem_of_fmap_2. exact Ho.
    + destruct Ho as [->|Ho]; [congruence|]. apply IH; assumption.
Qed.

Lemma cast_of_declared (decl : Output.t → Z) (o : Output.t) :
  Output.distinct decl → o ∈ Output.named → Output.cast decl (decl o) = o.
Proof.
  intros Hd Ho. unfold Output.cast.
  rewrite (find_distinct_value decl Output.named o Hd Ho). reflexivity.
Qed.

(** C7. For every mask the result is the [", "]-join, in ascending bit
    order over the indices 1 to 7, of the extension (without its leading
    dot) of the Output value [1 << i] of each set bit [i]; the empty
    mask gives the empty string; and when the enumeration declares
    Jpeg as [1 << 1] and Avif as [1 << 3], the mask [(1<<1)|(1<<3)]
    gives [jpg, avif]. *)
Theorem supported_savers_string_join :
  ∀ (decl : Output.t → Z) (msk : Z),
    supported_savers_string decl msk
      = String.concat ", "
          ((λ i, substr 1 (determine_image_extension (Output.cast decl (Z.shiftl 1 i))))
             <$> filter (λ i, Z.testbit msk i = true) saver_bits)
    ∧ supported_savers_string decl 0 = EmptyString
    ∧ (Output.distinct decl →
       decl Output.Jpeg = Z.shiftl 1 1 →
       decl Output.Avif = Z.shiftl 1 3 →
       supported_savers_string decl (Z.lor (Z.shiftl 1 1) (Z.shiftl 1 3)) = "jpg, avif").
Proof.
  intros decl.
  assert (Hjoin : ∀ msk, supported_savers_string decl msk
                         = String.concat ", " (savers_of decl msk saver_bits)).
  { intros msk. unfold supported_savers_string.
    exact (savers_loop_concat decl msk 7 1 [] ltac:(lia) (Forall_nil_2 _)). }
  intros msk. split; [exact (Hjoin msk)|]. split.
  - rewrite Hjoin. reflexivity.
  - intros Hd HJ HA. rewrite Hjoin. unfold savers_of.
    replace (filter (λ i, Z.testbit (Z.lor (Z.shiftl 1 1) (Z.shiftl 1 3)) i = true) saver_bits)
      with [1; 3] by reflexivity.
    cbn [fmap list_fmap].
    rewrite <- HJ, <- HA.
    rewrite !cast_of_declared by (assumption || (unfold Output.named; set_solver)).
    reflexivity.
Qed.

Lemma supported_savers_string_join_witness :
  supported_savers_string example_output_values 10 = "jpg, avif".
Proof.
  refine (proj2 (proj2 (supported_savers_string_join example_output_values 0)) _ _ _).
  - unfold Output.distinct. apply (bool_decide_unpack _). vm_compute. exact I.
  - reflexivity.
  - reflexivity.
Defined.

Lemma prefix_length (p s : string) :
  String.prefix p s = true → (String.length p <= String.length s)%nat.
Proof.
  revert p. induction s as [|c s IH]; intros [|d p]; simpl; intros H;
    try lia; try discriminate H.
  destruct (Ascii.ascii_dec d c); [|discriminate H].
  apply IH in H. lia.
Qed.

Lemma prefix_get (p s : string) (n : nat) (c : Ascii.ascii) :
  String.prefix p s = true → String.get n p = Some c → String.get n s = Some c.
Proof.
  revert p n. induction s as [|d s IH]; intros [|e p] n; simpl; try discriminate.
  destruct (Ascii.ascii_dec e d) as [->|]; [|discriminate].
  intros Hp. destruct n as [|n]; [auto|]. apply IH. exact Hp.
Qed.

Lemma rfind_0_prefix (s p : string) :
  rfind s p 0 = Some 0%nat ↔ String.prefix p s = true.
Proof.
  unfold rfind. rewrite Nat.min_0_r. cbn [rfind_down substr].
  destruct (Nat.ltb_spec (String.length s) (String.length p)) as [Hlt|Hge].
  - split; [discriminate|]. intros H%prefix_length. lia.
  - destruct (String.prefix p s); split; auto; discriminate.
Qed.

Lemma if_rfind_0 {A : Type} (s p : string) (a b : A) :
  (if decide (rfind s p 0 = Some 0%nat) then a else b)
    = (if String.prefix p s then a else b).
Proof.
  destruct (decide (rfind s p 0 = Some 0%nat)) as [H|H].
  - apply rfind_0_prefix in H. rewrite H. reflexivity.
  - destruct (String.prefix p s) eqn:Hp; [|reflexivity].
    exfalso. apply H, rfind_0_prefix, Hp.
Qed.

Lemma determine_image_type_lookup (vmajor vminor vmicro : Z) (loader : string) :
  determine_image_type vmajor vminor vmicro loader
    = lookup_loader (loader_table (VIPS_FOREIGN_LOAD_GIF vmajor vminor vmicro)) loader.
Proof.
  unfold determine_image_type. rewrite !if_rfind_0.
  unfold lookup_loader, loader_table. cbn [List.find fst snd].
  repeat match goal with
         | |- context [String.prefix ?p loader] => destruct (String.prefix p loader)
         end; reflexivity.
Qed.

(** The two characters that follow the common stem [VipsForeignLoad]
    tell the prefixes of the table apart. *)
Lemma loader_table_exclusive (gif loader : string) (e1 e2 : string * ImageType.t) :
  gif = "VipsForeignLoadNsgif" ∨ gif = "VipsForeignLoadGif" →
  In e1 (loader_table gif) → In e2 (loader_table gif) →
  String.prefix (fst e1) loader = true → String.prefix (fst e2) loader = true →
  e1 = e2.
Proof.
  intros Hgif H1 H2 P1 P2.
  assert (K : ∀ e, In e (loader_table gif) → String.prefix (fst e) loader = true →
              ∃ c d, String.get 15 (fst e) = Some c ∧ String.get 16 (fst e) = Some d
                     ∧ String.get 15 loader = Some c ∧ String.get 16 loader = Some d).
  { intros e He Pe.
    assert (∃ c d, String.get 15 (fst e) = Some c ∧ String.get 16 (fst e) = Some d)
      as (c & d & Hc & Hd).
    { destruct Hgif as [-> | ->]; cbn in He;
        repeat (destruct He as [<-|He]; [do 2 eexists; split; reflexivity|]);
        destruct He. }
    exists c, d. repeat split; try assumption; eapply prefix_get; eassumption. }
  destruct (K e1 H1 P1) as (c1 & d1 & Hc1 & Hd1 & Lc1 & Ld1).
  destruct (K e2 H2 P2) as (c2 & d2 & Hc2 & Hd2 & Lc2 & Ld2).
  rewrite Lc1 in Lc2. rewrite Ld1 in Ld2.
  injection Lc2 as <-. injection Ld2 as <-. clear K P1 P2 Lc1 Ld1.
  destruct Hgif as [-> | ->]; cbn in H1, H2;
    repeat (destruct H1 as [<-|H1]; [|]); try destruct H1;
    repeat (destruct H2 as [<-|H2]; [|]); try destruct H2;
    cbn in Hc1, Hd1, Hc2, Hd2; congruence.
Qed.

(** C8. [determine_image_type] is a total function of the loader name:
    with the GIF prefix the build selects (one of the two alternatives),
    its result is the type of the entry of the prefix table that the
    name starts with -- at most one entry does -- and [Unknown], with no
    error, when none does; so [VipsForeignLoadFoo] is [Unknown]. *)
Theorem determine_image_type_by_prefix :
  ∀ (vmajor vminor vmicro : Z) (loader : string),
    let gif := VIPS_FOREIGN_LOAD_GIF vmajor vminor vmicro in
    let table := loader_table gif in
    ((gif = "VipsForeignLoadNsgif" ∧ gif ≠ "VipsForeignLoadGif")
     ∨ (gif = "VipsForeignLoadGif" ∧ gif ≠ "VipsForeignLoadNsgif"))
    ∧ determine_image_type vmajor vminor vmicro loader = lookup_loader table loader
    ∧ (∀ prefix ty, In (prefix, ty) table → String.prefix prefix loader = true →
         determine_image_type vmajor vminor vmicro loader = ty)
    ∧ ((∀ prefix ty, In (prefix, ty) table → String.prefix prefix loader = false) →
         determine_image_type vmajor vminor vmicro loader = ImageType.Unknown)
    ∧ determine_image_type vmajor vminor vmicro "VipsForeignLoadFoo" = ImageType.Unknown.
Proof.
  intros vmajor vminor vmicro loader gif table.
  assert (Hgif : (gif = "VipsForeignLoadNsgif" ∧ gif ≠ "VipsForeignLoadGif")
                 ∨ (gif = "VipsForeignLoadGif" ∧ gif ≠ "VipsForeignLoadNsgif")).
  { unfold gif, VIPS_FOREIGN_LOAD_GIF.
    destruct (VIPS_VERSION_AT_LEAST vmajor vminor vmicro 8 11 0);
      [left|right]; split; [reflexivity|discriminate|reflexivity|discriminate]. }
  assert (Hgif' : gif = "VipsForeignLoadNsgif" ∨ gif = "VipsForeignLoadGif")
    by (destruct Hgif as [[? _]|[? _]]; auto).
  split; [exact Hgif|]. split; [apply determine_image_type_lookup|]. split; [|split].
  - intros prefix ty Hin Hp. rewrite determine_image_type_lookup.
    fold gif. fold table. unfold lookup_loader.
    destruct (List.find (λ entry, String.prefix (fst entry) loader) table)
      as [entry|] eqn:Hfind.
    + apply find_some in Hfind as [Hin' Hp'].
      rewrite (loader_table_exclusive gif loader entry (prefix, ty) Hgif' Hin' Hin Hp' Hp).
      reflexivity.
    + apply (find_none _ _ Hfind) in Hin. cbn in Hin. congruence.
  - intros Hnone. rewrite determine_image_type_lookup.
    fold gif. fold table. unfold lookup_loader.
    destruct (List.find (λ entry, String.prefix (fst entry) loader) table)
      as [[prefix ty]|] eqn:Hfind; [|reflexivity].
    apply find_some in Hfind as [Hin Hp]. cbn in Hp.
    rewrite (Hnone prefix ty Hin) in Hp. discriminate.
  - rewrite determine_image_type_lookup. fold gif.
    destruct Hgif' as [-> | ->]; reflexivity.
Qed.

(** ** Evaluation deadline governor *)

Lemma image_eval_cb_below (image : VipsImage) (p : VipsProgress) (timeout : nat) (b : Z) :
  cells image !! timeout = Some b → run p < b → image_eval_cb image p timeout = image.
Proof.
  intros Hc Hp. unfold image_eval_cb. rewrite Hc.
  destruct (Z.leb_spec b (run p)); [lia|]. rewrite andb_false_r. reflexivity.
Qed.

Lemma image_eval_cb_spent (image : VipsImage) (p : VipsProgress) (timeout : nat) (b : Z) :
  cells image !! timeout = Some b → b <= 0 → image_eval_cb image p timeout = image.
Proof.
  intros Hc Hb. unfold image_eval_cb. rewrite Hc.
  destruct (Z.ltb_spec 0 b); [lia|]. reflexivity.
Qed.

Lemma image_eval_cb_trip (image : VipsImage) (p : VipsProgress) (timeout : nat) (b : Z) :
  cells image !! timeout = Some b → 0 < b → b <= run p →
  image_eval_cb image p timeout
    = mkImage true (progress_signal image) (<[timeout := 0]> (cells image))
        (eval_handlers image)
        (error_log image ++ ["weserv: " +:+ timeout_message b p]).
Proof.
  intros Hc Hb Hp. unfold image_eval_cb. rewrite Hc.
  destruct (Z.ltb_spec 0 b); [|lia]. destruct (Z.leb_spec b (run p)); [|lia].
  reflexivity.
Qed.

Lemma timeout_message_contains (b : Z) (p : VipsProgress) :
  contains ("weserv: " +:+ timeout_message b p) (pretty (run p))
  ∧ contains ("weserv: " +:+ timeout_message b p) (pretty (percent p)).
Proof.
  unfold contains, timeout_message. split.
  - exists ("weserv: " +:+ "Maximum image processing time of " +:+ pretty b
              +:+ " second" +:+ plural b +:+ " exceeded with ").
    eexists. rewrite !string_app_assoc. reflexivity.
  - exists ("weserv: " +:+ "Maximum image processing time of " +:+ pretty b
              +:+ " second" +:+ plural b +:+ " exceeded with " +:+ pretty (run p)
              +:+ " second" +:+ plural (run p) +:+ ". Operation was canceled after ").
    eexists. rewrite !string_app_assoc. reflexivity.
Qed.

Lemma eval_ticks_quiet (image : VipsImage) (timeout : nat) (b : Z)
    (ticks : list VipsProgress) :
  cells image !! timeout = Some b →
  Forall (λ q, run q < b) ticks ∨ b <= 0 →
  eval_ticks image timeout ticks = image.
Proof.
  intros Hc Hq. unfold eval_ticks.
  induction ticks as [|q ticks IH]; [reflexivity|]. cbn [foldl].
  assert (Hstep : image_eval_cb image q timeout = image).
  { destruct Hq as [Hq|Hb].
    - apply (image_eval_cb_below image q timeout b Hc). inversion Hq; assumption.
    - apply (image_eval_cb_spent image q timeout b Hc Hb). }
  rewrite Hstep. apply IH.
  destruct Hq as [Hq|Hb]; [left; inversion Hq; assumption|right; assumption].
Qed.

(** C1. With a budget [b > 0] in the timeout cell: a notification whose
    elapsed seconds are below [b] changes nothing; the first one that
    reports [b] or more sets the kill flag, appends one error line that
    contains the elapsed seconds and the percentage, and stores 0 in the
    cell, leaving the rest of the state alone; every notification after
    that changes nothing, so a run of notifications ends in the state of
    that first trip.  With [b = 2]: elapsed 1 does not trip, elapsed 2
    trips, and a further notification with elapsed 3 changes nothing. *)
Theorem image_eval_cb_trips_once :
  ∀ (image : VipsImage) (timeout : nat) (b : Z),
    cells image !! timeout = Some b →
    0 < b →
    (∀ p, run p < b → image_eval_cb image p timeout = image)
    ∧ (∀ p, b <= run p →
         let tripped := image_eval_cb image p timeout in
         kill tripped = true
         ∧ (∃ line, error_log tripped = error_log image ++ [line]
                    ∧ contains line (pretty (run p))
                    ∧ contains line (pretty (percent p)))
         ∧ cells tripped = <[timeout := 0]> (cells image)
         ∧ cells tripped !! timeout = Some 0
         ∧ progress_signal tripped = progress_signal image
         ∧ eval_handlers tripped = eval_handlers image
         ∧ (∀ q, image_eval_cb tripped q timeout = tripped))
    ∧ (∀ before p after,
         Forall (λ q, run q < b) before → b <= run p →
         eval_ticks image timeout (before ++ p :: after)
           = image_eval_cb image p timeout)
    ∧ (∀ ticks, Forall (λ q, run q < b) ticks →
         eval_ticks image timeout ticks = image)
    ∧ image_eval_cb armed_2 (mkProgress 1 25) 0 = armed_2
    ∧ image_eval_cb armed_2 (mkProgress 2 50) 0 = tripped_2
    ∧ image_eval_cb tripped_2 (mkProgress 3 75) 0 = tripped_2
    ∧ eval_ticks armed_2 0 [mkProgress 1 25; mkProgress 2 50; mkProgress 3 75]
        = tripped_2.
Proof.
  intros image timeout b Hc Hb.
  assert (Hlt : (timeout < length (cells image))%nat)
    by (apply lookup_lt_is_Some; eauto).
  assert (Hzero : ∀ p, b <= run p →
            cells (image_eval_cb image p timeout) !! timeout = Some 0).
  { intros p Hp. rewrite (image_eval_cb_trip image p timeout b Hc Hb Hp). cbn.
    apply list_lookup_insert_eq. exact Hlt. }
  split; [intros p Hp; exact (image_eval_cb_below image p timeout b Hc Hp)|].
  split; [|split; [|split]].
  - intros p Hp tripped. unfold tripped.
    split; [|split; [|split; [|split; [|split; [|split]]]]].
    + rewrite (image_eval_cb_trip image p timeout b Hc Hb Hp). reflexivity.
    + exists ("weserv: " +:+ timeout_message b p).
      rewrite (image_eval_cb_trip image p timeout b Hc Hb Hp).
      split; [reflexivity|apply timeout_message_contains].
    + rewrite (image_eval_cb_trip image p timeout b Hc Hb Hp). reflexivity.
    + apply Hzero, Hp.
    + rewrite (image_eval_cb_trip image p timeout b Hc Hb Hp). reflexivity.
    + rewrite (image_eval_cb_trip image p timeout b Hc Hb Hp). reflexivity.
    + intros q. apply (image_eval_cb_spent _ q timeout 0); [apply Hzero, Hp|lia].
  - intros before p after Hbefore Hp. unfold eval_ticks.
    rewrite foldl_app. fold (eval_ticks image timeout before).
    rewrite (eval_ticks_quiet image timeout b before Hc (or_introl Hbefore)).
    cbn [foldl]. fold (eval_ticks (image_eval_cb image p timeout) timeout after).
    apply (eval_ticks_quiet _ timeout 0 after); [apply Hzero, Hp|right; lia].
  - intros ticks Hticks. apply (eval_ticks_quiet image timeout b ticks Hc). left. exact Hticks.
  - repeat split; vm_compute; reflexivity.
Qed.

Lemma image_eval_cb_trips_once_witness :
  kill (image_eval_cb armed_2 (mkProgress 7 90) 0) = true.
Proof.
  assert (Hc : cells armed_2 !! 0%nat = Some 2) by reflexivity.
  assert (Hb : 0 < 2) by lia.
  assert (Hp : 2 <= run (mkProgress 7 90)) by (cbn; lia).
  exact (proj1 (proj1 (proj2 (image_eval_cb_trips_once armed_2 0 2 Hc Hb))
                  (mkProgress 7 90) Hp)).
Defined.

(** After a registration the callback is connected with a cell that
    holds the timeout, so the first notification at or over it trips. *)
Lemma setup_timeout_handler_arms (image : VipsImage) (process_timeout : Z) :
  0 < process_timeout →
  let armed := setup_timeout_handler image process_timeout in
  ∃ timeout, last (eval_handlers armed) = Some timeout
             ∧ cells armed !! timeout = Some process_timeout
             ∧ progress_signal armed = true.
Proof.
  intros Ht armed. exists (length (cells image)). unfold armed, setup_timeout_handler.
  destruct (Z.ltb_spec 0 process_timeout); [|lia].
  unfold VIPS_NEW, store_cell, g_signal_connect_eval, vips_image_set_progress.
  cbn [kill progress_signal cells eval_handlers error_log].
  split; [apply last_snoc|]. split; [|reflexivity].
  apply list_lookup_insert_eq. rewrite length_app. cbn. lia.
Qed.

(** C9. With a timeout of 0 or less [setup_timeout_handler] returns the
    image as it was: no cell, no handler, progress reporting untouched.
    With a positive timeout it allocates a cell holding the timeout,
    connects the callback with that cell and enables progress reporting;
    so the image changes exactly when the timeout is positive. *)
Theorem setup_timeout_handler_registers_iff_positive :
  ∀ (image : VipsImage) (process_timeout : Z),
    (process_timeout <= 0 → setup_timeout_handler image process_timeout = image)
    ∧ (0 < process_timeout →
       setup_timeout_handler image process_timeout
         = mkImage (kill image) true (cells image ++ [process_timeout])
             (eval_handlers image ++ [length (cells image)]) (error_log image))
    ∧ (setup_timeout_handler image process_timeout = image ↔ process_timeout <= 0).
Proof.
  intros image t.
  assert (Hpos : 0 < t → setup_timeout_handler image t
                  = mkImage (kill image) true (cells image ++ [t])
                      (eval_handlers image ++ [length (cells image)]) (error_log image)).
  { intros Ht. unfold setup_timeout_handler.
    destruct (Z.ltb_spec 0 t); [|lia].
    unfold VIPS_NEW, store_cell, g_signal_connect_eval, vips_image_set_progress.
    cbn [kill progress_signal cells eval_handlers error_log].
    rewrite (insert_app_r_alt (cells image) [0] (length (cells image)) t) by lia.
    rewrite Nat.sub_diag. reflexivity. }
  assert (Hneg : t <= 0 → setup_timeout_handler image t = image).
  { intros Ht. unfold setup_timeout_handler. destruct (Z.ltb_spec 0 t); [lia|reflexivity]. }
  split; [exact Hneg|]. split; [exact Hpos|]. split; [|exact Hneg].
  intros Heq. destruct (Z.le_gt_cases t 0) as [|Ht]; [assumption|].
  rewrite (Hpos ltac:(lia)) in Heq.
  apply (f_equal (λ i, length (cells i))) in Heq. cbn in Heq.
  rewrite length_app in Heq. cbn in Heq. lia.
Qed.

(** ** Multi-page crop reassembler *)

Lemma crop_pages_spec (image : VImage) (left top width height page_height : Z)
    (n : nat) :
  ∀ (i : Z) (pages : list VImage),
    let tops := page_top page_height top <$> seqZ i (Z.of_nat n) in
    crop_pages image left top width height page_height n i pages
      = if forallb (λ t, valid_area image left t width height) tops
        then Some (pages ++ ((λ t, ExtractArea image left t width height) <$> tops))
        else None.
Proof.
  induction n as [|n IH]; intros i pages.
  - cbn. rewrite app_nil_r. reflexivity.
  - cbv zeta in *. rewrite Nat2Z.inj_succ, seqZ_cons by lia.
    replace (Z.pred (Z.succ (Z.of_nat n))) with (Z.of_nat n) by lia.
    cbn [crop_pages forallb fmap list_fmap]. unfold extract_area.
    destruct (valid_area image left (page_top page_height top i) width height);
      [|reflexivity].
    cbn [mbind option_bind andb]. rewrite IH.
    replace (Z.succ i) with (i + 1) by lia.
    rewrite <- app_assoc. reflexivity.
Qed.

Lemma crop_multi_page_fast (image : VImage) (left top width height n_pages
    page_height : Z) :
  top = 0 ∧ height = page_height →
  crop_multi_page image left top width height n_pages page_height
    = if valid_area image left 0 width (Ysize image)
      then Some (ExtractArea image left 0 width (Ysize image))
      else None.
Proof.
  intros [-> ->]. unfold crop_multi_page. rewrite !Z.eqb_refl. reflexivity.
Qed.

Lemma crop_multi_page_general (image : VImage) (left top width height n_pages
    page_height : Z) :
  ¬ (top = 0 ∧ height = page_height) →
  let tops := page_top page_height top <$> seqZ 0 n_pages in
  crop_multi_page image left top width height n_pages page_height
    = if forallb (λ t, valid_area image left t width height) tops && (1 <=? n_pages)
      then Some (ArrayJoin ((λ t, ExtractArea image left t width height) <$> tops) 1)
      else None.
Proof.
  intros Hslow tops. unfold crop_multi_page.
  assert (Hcond : (top =? 0) && (height =? page_height) = false).
  { apply andb_false_iff.
    destruct (Z.eqb_spec top 0), (Z.eqb_spec height page_height); tauto. }
  rewrite Hcond.
  destruct (Z.ltb_spec n_pages 0) as [Hneg|Hnn].
  - destruct (Z.leb_spec 1 n_pages); [lia|]. rewrite andb_false_r. reflexivity.
  - rewrite crop_pages_spec. rewrite Z2Nat.id by assumption. fold tops.
    destruct (forallb (λ t, valid_area image left t width height) tops);
      [|reflexivity].
    cbn [mbind option_bind andb app].
    destruct (Z.leb_spec 1 n_pages) as [Hpos|Hzero].
    + unfold tops. rewrite seqZ_cons by lia. reflexivity.
    + unfold tops. rewrite seqZ_nil by lia. reflexivity.
Qed.

Lemma page_top_exact (page_height top i : Z) :
  Int.in_range (page_height * i) → Int.in_range (page_height * i + top) →
  page_top page_height top i = page_height * i + top.
Proof.
  intros Hm Ha. unfold page_top, Int.add, Int.mul.
  rewrite (Int_wrap_id (page_height * i)) by assumption.
  apply Int_wrap_id. assumption.
Qed.

Lemma page_tops_exact (page_height top n_pages : Z) :
  (∀ i, 0 <= i < n_pages →
        Int.in_range (page_height * i) ∧ Int.in_range (page_height * i + top)) →
  page_top page_height top <$> seqZ 0 n_pages
    = (λ i, page_height * i + top) <$> seqZ 0 n_pages.
Proof.
  intros Hrange. apply list_fmap_ext. intros k i Hk.
  apply lookup_seqZ in Hk as [-> Hk].
  destruct (Hrange (0 + Z.of_nat k) ltac:(lia)) as [Hm Ha].
  apply page_top_exact; assumption.
Qed.

(** C3. As long as [page_height * i + top] does not overflow for the
    page indices [i] in [[0, n_pages)]: when [top = 0] and [height =
    page_height] the result is the single extraction of [(left, 0,
    width, image height)], with no join; otherwise it is the join, in
    one column and in page order, of the extractions of [(left,
    page_height * i + top, width, height)] for [i] from 0 to [n_pages -
    1] (it throws if one of the areas is bad or there is no page); the
    returned node is an extraction exactly on the fast path.  With
    [top = 5], [height = 30], [page_height = 40] and 3 pages the result
    joins three areas of height 30 and is 90 tall. *)
Theorem crop_multi_page_paths :
  ∀ (image : VImage) (left top width height n_pages page_height : Z),
    (∀ i, 0 <= i < n_pages →
          Int.in_range (page_height * i) ∧ Int.in_range (page_height * i + top)) →
    let tops := (λ i, page_height * i + top) <$> seqZ 0 n_pages in
    let result := crop_multi_page image left top width height n_pages page_height in
    (top = 0 ∧ height = page_height →
       result = if valid_area image left 0 width (Ysize image)
                then Some (ExtractArea image left 0 width (Ysize image))
                else None)
    ∧ (¬ (top = 0 ∧ height = page_height) →
       result = if forallb (λ t, valid_area image left t width height) tops
                   && (1 <=? n_pages)
                then Some (ArrayJoin
                             ((λ t, ExtractArea image left t width height) <$> tops) 1)
                else None)
    ∧ (∀ r, result = Some r →
         (is_extraction r = true ↔ top = 0 ∧ height = page_height))
    ∧ crop_multi_page strip_3x40 5 5 20 30 3 40
        = Some (ArrayJoin [ExtractArea strip_3x40 5 5 20 30;
                           ExtractArea strip_3x40 5 45 20 30;
                           ExtractArea strip_3x40 5 85 20 30] 1)
    ∧ (∀ r, crop_multi_page strip_3x40 5 5 20 30 3 40 = Some r →
         Ysize r = 90 ∧ Xsize r = 20)
    ∧ crop_multi_page strip_3x40 5 0 20 40 3 40
        = Some (ExtractArea strip_3x40 5 0 20 120).
Proof.
  intros image left top width height n_pages page_height Hrange tops result.
  assert (Hfast := crop_multi_page_fast image left top width height n_pages page_height).
  assert (Hgen := crop_multi_page_general image left top width height n_pages page_height).
  cbv zeta in Hgen. rewrite (page_tops_exact _ _ _ Hrange) in Hgen.
  fold tops in Hgen. fold result in Hfast, Hgen.
  split; [exact Hfast|]. split; [exact Hgen|]. split; [|split; [|split]].
  - intros r Hr.
    destruct (decide (top = 0 ∧ height = page_height)) as [Hf|Hs].
    + rewrite (Hfast Hf) in Hr.
      destruct (valid_area image left 0 width (Ysize image)); [|discriminate].
      injection Hr as <-. split; [intros _; exact Hf|reflexivity].
    + rewrite (Hgen Hs) in Hr.
      destruct (forallb (λ t, valid_area image left t width height) tops
                && (1 <=? n_pages)); [|discriminate].
      injection Hr as <-. split; [discriminate|intros Hf; contradiction].
  - vm_compute. reflexivity.
  - intros r Hr. vm_compute in Hr. injection Hr as <-. vm_compute. split; reflexivity.
  - vm_compute. reflexivity.
Qed.

Lemma crop_multi_page_paths_witness :
  crop_multi_page (Decoded 10 20) 1 2 8 5 2 10
    = Some (ArrayJoin [ExtractArea (Decoded 10 20) 1 2 8 5;
                       ExtractArea (Decoded 10 20) 1 12 8 5] 1).
Proof.
  assert (Hrange : ∀ i, 0 <= i < 2 →
            Int.in_range (10 * i) ∧ Int.in_range (10 * i + 2)).
  { intros i Hi. unfold Int.in_range, Int.min_int, Int.max_int. lia. }
  assert (Hslow : ¬ (2 = 0 ∧ 5 = 10)) by lia.
  exact (proj1 (proj2 (crop_multi_page_paths (Decoded 10 20) 1 2 8 5 2 10 Hrange)) Hslow).
Defined.

Lemma foldr_max_const (h : Z) (l : list Z) :
  0 <= h → l ≠ [] → Forall (λ x, x = h) l → foldr Z.max 0 l = h.
Proof.
  intros Hh Hne Hl. induction Hl as [|x l -> Hl IH]; [contradiction|].
  cbn [foldr]. destruct l as [|y l]; [cbn; lia|].
  rewrite IH by discriminate. lia.
Qed.

(** C4. When [n_pages >= 1] and [crop_multi_page] returns an image: on
    the general path the image is [n_pages * height] tall; on the fast
    path ([top = 0] and [height = page_height]) it is as tall as the
    source, which is [n_pages * page_height] for a source made of
    [n_pages] pages of [page_height].  The call does return an image
    when the areas it extracts lie inside the source. *)
Theorem crop_multi_page_height :
  ∀ (image : VImage) (left top width height n_pages page_height : Z),
    1 <= n_pages →
    let result := crop_multi_page image left top width height n_pages page_height in
    (∀ r, result = Some r →
       (¬ (top = 0 ∧ height = page_height) → Ysize r = n_pages * height)
       ∧ (top = 0 ∧ height = page_height →
            Ysize r = Ysize image
            ∧ (Ysize image = n_pages * page_height →
               Ysize r = n_pages * page_height)))
    ∧ (¬ (top = 0 ∧ height = page_height) →
       (∀ i, 0 <= i < n_pages →
          valid_area image left (page_top page_height top i) width height = true) →
       is_Some result)
    ∧ (top = 0 ∧ height = page_height →
       valid_area image left 0 width (Ysize image) = true →
       is_Some result).
Proof.
  intros image left top width height n_pages page_height Hn result.
  assert (Hfast := crop_multi_page_fast image left top width height n_pages page_height).
  assert (Hgen := crop_multi_page_general image left top width height n_pages page_height).
  cbv zeta in Hgen. fold result in Hfast, Hgen.
  split; [|split].
  - intros r Hr. split.
    + intros Hs. rewrite (Hgen Hs) in Hr.
      set (tops := page_top page_height top <$> seqZ 0 n_pages) in *.
      destruct (forallb (λ t, valid_area image left t width height) tops) eqn:Hv;
        [|discriminate].
      destruct (1 <=? n_pages); [|discriminate].
      injection Hr as <-. cbn [Ysize].
      rewrite length_fmap. unfold tops at 2. rewrite length_fmap, length_seqZ.
      rewrite Z2Nat.id by lia. unfold grid_rows.
      replace (n_pages + 1 - 1) with n_pages by lia. rewrite Z.div_1_r.
      assert (Hne : tops ≠ []).
      { unfold tops. rewrite seqZ_cons by lia. discriminate. }
      assert (Hh : 0 < height).
      { destruct tops as [|t tops']; [contradiction|].
        cbn [forallb] in Hv. apply andb_true_iff in Hv as [Hv _].
        unfold valid_area in Hv. apply negb_true_iff in Hv.
        repeat (apply orb_false_iff in Hv as [Hv ?]).
        destruct (Z.leb_spec height 0); [discriminate|assumption]. }
      rewrite (foldr_max_const height); [lia|lia| |].
      * destruct tops; [contradiction|discriminate].
      * rewrite <- list_fmap_compose. apply Forall_fmap, Forall_forall.
        intros t _. reflexivity.
    + intros Hf. rewrite (Hfast Hf) in Hr.
      destruct (valid_area image left 0 width (Ysize image)); [|discriminate].
      injection Hr as <-. cbn [Ysize]. split; [reflexivity|auto].
  - intros Hs Hvalid. rewrite (Hgen Hs).
    assert (Hv : forallb (λ t, valid_area image left t width height)
                   (page_top page_height top <$> seqZ 0 n_pages) = true).
    { apply forallb_forall. intros t Ht. apply list_elem_of_In in Ht.
      apply list_elem_of_fmap in Ht as (i & -> & Hi).
      apply list_elem_of_lookup in Hi as (k & Hk).
      apply lookup_seqZ in Hk as [-> Hk]. apply Hvalid. lia. }
    rewrite Hv. destruct (Z.leb_spec 1 n_pages); [|lia]. eexists. reflexivity.
  - intros Hf Hvalid. rewrite (Hfast Hf), Hvalid. eexists. reflexivity.
Qed.

Lemma crop_multi_page_height_witness :
  1 <= 3
  ∧ crop_multi_page strip_3x40 5 5 20 30 3 40
      = Some (ArrayJoin [ExtractArea strip_3x40 5 5 20 30;
                         ExtractArea strip_3x40 5 45 20 30;
                         ExtractArea strip_3x40 5 85 20 30] 1)
  ∧ Ysize (ArrayJoin [ExtractArea strip_3x40 5 5 20 30;
                      ExtractArea strip_3x40 5 45 20 30;
                      ExtractArea strip_3x40 5 85 20 30] 1) = 3 * 30.
Proof.
  assert (Hn : 1 <= 3) by lia.
  assert (Hs : ¬ (5 = 0 ∧ 30 = 40)) by lia.
  assert (Hr : crop_multi_page strip_3x40 5 5 20 30 3 40
               = Some (ArrayJoin [ExtractArea strip_3x40 5 5 20 30;
                                  ExtractArea strip_3x40 5 45 20 30;
                                  ExtractArea strip_3x40 5 85 20 30] 1))
    by (vm_compute; reflexivity).
  split; [exact Hn|]. split; [exact Hr|].
  exact (proj1 (proj1 (crop_multi_page_height strip_3x40 5 5 20 30 3 40 Hn) _ Hr) Hs).
Defined.

(** ** Focal point cropping *)

Lemma round_magnitude_nearest (m : positive) (e : Z) :
  e < 0 →
  2 * F64.round_magnitude m e * 2 ^ (- e) - 2 ^ (- e)
    <= 2 * Zpos m
    < 2 * F64.round_magnitude m e * 2 ^ (- e) + 2 ^ (- e).
Proof.
  intros He. unfold F64.round_magnitude. cbv zeta.
  rewrite Z.shiftr_div_pow2, !Z.shiftl_mul_pow2 by lia.
  replace (2 ^ (- e)) with (2 * 2 ^ (- e - 1))
    by (rewrite <- Z.pow_succ_r by lia; f_equal; lia).
  set (h := 2 ^ (- e - 1)).
  assert (Hh : 0 < h) by (apply Z.pow_pos_nonneg; lia).
  pose proof (Z.div_mod (Zpos m) (2 * h) ltac:(lia)) as Hdm.
  pose proof (Z.mod_pos_bound (Zpos m) (2 * h) ltac:(lia)) as Hmod.
  set (q := Zpos m / (2 * h)) in *. set (r := Zpos m mod (2 * h)) in *.
  replace (Zpos m - q * (2 * h)) with r by lia.
  destruct (Z.leb_spec (1 * h) r); nia.
Qed.

Lemma clamp_within (v hi : Z) :
  0 <= hi →
  0 <= clamp v 0 hi <= hi
  ∧ (0 <= v <= hi → clamp v 0 hi = v)
  ∧ (v < 0 → clamp v 0 hi = 0)
  ∧ (hi < v → clamp v 0 hi = hi).
Proof.
  intros Hhi. unfold clamp, std_min, std_max.
  destruct (Z.ltb_spec v 0);
    match goal with
    | |- context [hi <? ?x] => destruct (Z.ltb_spec hi x)
    end; repeat split; intros; lia.
Qed.

Lemma clamp_clamped (v lo hi : Z) : clamped v lo hi (clamp v lo hi).
Proof.
  unfold clamped, clamp, std_min, std_max.
  destruct (Z.ltb_spec v lo);
    match goal with
    | |- context [hi <? ?x] => destruct (Z.ltb_spec hi x)
    end; repeat split; intros; lia.
Qed.

(** *** Comparison of floating-point numbers *)

Lemma SFcompare_antisym (a b : spec_float) :
  SFcompare b a = option_map CompOpp (SFcompare a b).
Proof.
  destruct a as [sa|sa| |sa ma ea], b as [sb|sb| |sb mb eb]; cbn;
    try reflexivity; try (destruct sa; reflexivity); try (destruct sb; reflexivity);
    try (destruct sa, sb; reflexivity).
  pose proof (Pos.compare_cont_antisym ma mb Eq) as Hm. cbn [CompOpp] in Hm.
  destruct sa, sb; try reflexivity; cbn;
    rewrite (Z.compare_antisym ea eb); destruct (ea ?= eb); cbn; try reflexivity;
    rewrite <- Hm; destruct (Pos.compare_cont Eq ma mb); reflexivity.
Qed.

Lemma SFcompare_refl (a : spec_float) : a ≠ S754_nan → SFcompare a a = Some Eq.
Proof.
  destruct a as [s|s| |s m e]; intros Ha; cbn; try reflexivity.
  - destruct s; reflexivity.
  - contradiction.
  - change (Pos.compare_cont Eq m m) with (Pos.compare m m).
    rewrite Z.compare_refl, Pos.compare_refl. destruct s; reflexivity.
Qed.

Lemma SFcompare_None (a b : spec_float) :
  SFcompare a b = None → a = S754_nan ∨ b = S754_nan.
Proof.
  destruct a as [sa|sa| |sa ma ea], b as [sb|sb| |sb mb eb]; cbn; auto;
    discriminate.
Qed.

Lemma F64_min_smaller_of (a b : spec_float) : smaller_of (F64.min a b) a b.
Proof.
  unfold smaller_of, F64.min, F64.ltb, SFltb, SFleb.
  pose proof (SFcompare_antisym a b) as Hanti.
  pose proof (SFcompare_refl a) as Ha. pose proof (SFcompare_refl b) as Hb.
  destruct (SFcompare a b) as [[| |]|] eqn:Hab; cbn in Hanti; rewrite Hanti.
  - split; [auto|]. split; [intros Na Nb; rewrite Ha, Hab by assumption; auto|auto].
  - split; [auto|]. split; [intros Na Nb; rewrite Ha, Hab by assumption; auto|auto].
  - split; [auto|]. split; [intros Na Nb; rewrite Hb, Hanti by assumption; auto|].
    intros [H|[->| ->]]; [discriminate H| |].
    + cbn in Hab. discriminate Hab.
    + destruct a; discriminate Hab.
  - split; [auto|]. split; [|auto].
    intros Na Nb. destruct (SFcompare_None a b Hab); contradiction.
Qed.

(** *** Integers as doubles *)

Lemma iter_xO_value (p k : positive) :
  Zpos (Pos.iter xO p k) = Zpos p * 2 ^ Zpos k.
Proof.
  induction k as [|k IH] using Pos.peano_ind.
  - cbn. lia.
  - rewrite Pos.iter_succ, Pos2Z.inj_xO, IH, Pos2Z.inj_succ, Z.pow_succ_r by lia. lia.
Qed.

Lemma iter_xO_digits (p k : positive) :
  Zpos (digits2_pos (Pos.iter xO p k)) = Zpos (digits2_pos p) + Zpos k.
Proof.
  induction k as [|k IH] using Pos.peano_ind.
  - cbn. lia.
  - rewrite Pos.iter_succ. cbn [digits2_pos]. rewrite Pos2Z.inj_succ, IH. lia.
Qed.

Lemma digits2_pos_bounds (p : positive) :
  2 ^ (Zpos (digits2_pos p) - 1) <= Zpos p < 2 ^ Zpos (digits2_pos p).
Proof.
  induction p as [p IH|p IH|]; cbn [digits2_pos]; [| |cbn; lia].
  - rewrite Pos2Z.inj_succ, Pos2Z.inj_xI.
    replace (Z.succ (Zpos (digits2_pos p)) - 1) with (Z.succ (Zpos (digits2_pos p) - 1))
      by lia.
    rewrite !Z.pow_succ_r by lia. lia.
  - rewrite Pos2Z.inj_succ. change (Zpos p~0) with (2 * Zpos p).
    replace (Z.succ (Zpos (digits2_pos p)) - 1) with (Z.succ (Zpos (digits2_pos p) - 1))
      by lia.
    rewrite !Z.pow_succ_r by lia. lia.
Qed.

Lemma binary_round_aux_exact (s : bool) (m : positive) (e : Z) :
  Zpos (digits2_pos m) = 53 → -1074 <= e <= 971 →
  binary_round_aux 53 1024 s (Zpos m) e loc_Exact = S754_finite s m e.
Proof.
  intros Hd He. unfold binary_round_aux, shr_fexp, fexp, emin.
  cbn [Zdigits2 shr_record_of_loc]. rewrite Hd.
  replace (Z.max (53 + e - 53) (3 - 1024 - 53) - e) with 0 by lia.
  cbn [shr shr_m loc_of_shr_record round_nearest_even Zdigits2 shr_record_of_loc].
  rewrite Hd.
  replace (Z.max (53 + e - 53) (3 - 1024 - 53) - e) with 0 by lia.
  cbn [shr shr_m]. destruct (Z.leb_spec e (1024 - 53)); [reflexivity|lia].
Qed.

Lemma binary_round_integer (s : bool) (p : positive) :
  Zpos (digits2_pos p) < 53 →
  binary_round 53 1024 s p 0
    = S754_finite s (Pos.iter xO p (Z.to_pos (53 - Zpos (digits2_pos p))))
        (Zpos (digits2_pos p) - 53).
Proof.
  intros Hd. unfold binary_round, shl_align, fexp, emin.
  set (d := Zpos (digits2_pos p)) in *.
  assert (Hd1 : 0 < d) by (unfold d; lia).
  replace (Z.max (d + 0 - 53) (3 - 1024 - 53)) with (d - 53) by lia.
  assert (Hk : d - 53 - 0 = Zneg (Z.to_pos (53 - d))).
  { rewrite <- Pos2Z.opp_pos, Z2Pos.id by lia. lia. }
  rewrite Hk. apply binary_round_aux_exact; [|lia].
  rewrite iter_xO_digits, Z2Pos.id by lia. fold d. lia.
Qed.

Lemma nearest_integer_unique (s : bool) (m : positive) (e n n' : Z) :
  nearest_integer s m e n → nearest_integer s m e n' → n = n'.
Proof.
  intros (q & Hq & -> & H) (q' & Hq' & -> & H').
  assert (q = q'); [|subst; reflexivity].
  destruct (Z.leb_spec 0 e); [lia|].
  assert (HP : 0 < 2 ^ (- e)) by (apply Z.pow_pos_nonneg; lia).
  destruct (Z.lt_trichotomy q q') as [Hlt|[Heq|Hgt]]; [exfalso|exact Heq|exfalso].
  - assert ((2 * q + 1) * 2 ^ (- e) <= (2 * q' - 1) * 2 ^ (- e))
      by (apply Z.mul_le_mono_nonneg_r; lia).
    lia.
  - assert ((2 * q' + 1) * 2 ^ (- e) <= (2 * q - 1) * 2 ^ (- e))
      by (apply Z.mul_le_mono_nonneg_r; lia).
    lia.
Qed.

Lemma nearest_integer_exists (s : bool) (m : positive) (e : Z) :
  ∃ n, nearest_integer s m e n.
Proof.
  unfold nearest_integer. destruct (Z.leb_spec 0 e) as [He|He].
  - exists (if s then - (Zpos m * 2 ^ e) else Zpos m * 2 ^ e), (Zpos m * 2 ^ e).
    assert (0 < 2 ^ e) by (apply Z.pow_pos_nonneg; lia).
    split; [nia|]. split; reflexivity.
  - pose proof (round_magnitude_nearest m e He) as Hm.
    assert (HP : 0 < 2 ^ (- e)) by (apply Z.pow_pos_nonneg; lia).
    set (q := F64.round_magnitude m e) in *. set (P := 2 ^ (- e)) in *.
    exists (if s then - q else q), q. split; [|split; [reflexivity|lia]].
    destruct (Z.lt_ge_cases q 0) as [Hneg|Hpos]; [exfalso|exact Hpos].
    assert ((2 * q + 1) * P <= 0 * P) by (apply Z.mul_le_mono_nonneg_r; lia).
    lia.
Qed.

Lemma int_digits (p : positive) :
  Zpos p <= 2147483648 → Zpos (digits2_pos p) < 53.
Proof.
  intros Hp. pose proof (digits2_pos_bounds p) as [Hlo _].
  assert (H : 2 ^ (Zpos (digits2_pos p) - 1) < 2 ^ 32)
    by (change (2 ^ 32) with 4294967296; lia).
  apply Z.pow_lt_mono_r_iff in H; lia.
Qed.

(** The [double] made from an [int] has that [int] as its nearest
    integer. *)
Lemma of_int_rounds_to (z : Z) :
  Int.in_range z → rounds_to (F64.of_int z) z.
Proof.
  unfold Int.in_range, Int.min_int, Int.max_int, F64.of_int. intros Hz.
  assert (Hq : ∀ (s : bool) (p : positive) (n : Z),
             Zpos (digits2_pos p) < 53 →
             nearest_integer s (Pos.iter xO p (Z.to_pos (53 - Zpos (digits2_pos p))))
               (Zpos (digits2_pos p) - 53) n →
             n = if s then - Zpos p else Zpos p).
  { intros s p n Hd (q & Hq & -> & Hn).
    set (d := Zpos (digits2_pos p)) in *.
    assert (Hd1 : 0 < d) by (unfold d; lia).
    destruct (Z.leb_spec 0 (d - 53)); [lia|].
    rewrite iter_xO_value, Z2Pos.id in Hn by lia.
    replace (- (d - 53)) with (53 - d) in Hn by lia.
    assert (HP : 0 < 2 ^ (53 - d)) by (apply Z.pow_pos_nonneg; lia).
    rewrite Z.mul_assoc in Hn. destruct Hn as [Hlow Hupp].
    apply Z.mul_le_mono_pos_r in Hlow; [|exact HP].
    apply Z.mul_lt_mono_pos_r in Hupp; [|exact HP].
    assert (q = Zpos p) by lia. subst q. reflexivity. }
  destruct z as [|p|p]; [reflexivity| |]; cbn [binary_normalize];
    assert (Hd : Zpos (digits2_pos p) < 53) by (apply int_digits; lia);
    rewrite (binary_round_integer _ p Hd); cbn [rounds_to]; intros n Hn _;
    rewrite (Hq _ p n Hd Hn); reflexivity.
Qed.

Section FocalPoint.

Variable cast_overflow : spec_float → Z.

(** An [int] converted to a [double] and back is the same [int]. *)
Lemma double_to_int_of_integer (z : Z) (szero : bool) :
  Int.in_range z →
  double_to_int cast_overflow (binary_normalize 53 1024 z 0 szero) = z.
Proof.
  unfold Int.in_range, Int.min_int, Int.max_int. intros Hz.
  destruct z as [|p|p]; [reflexivity| |]; cbn [binary_normalize];
    assert (Hd : Zpos (digits2_pos p) < 53) by (apply int_digits; lia);
    rewrite (binary_round_integer _ p Hd); cbn [double_to_int]; unfold F64.trunc;
    set (d := Zpos (digits2_pos p)) in *;
    (destruct (Z.leb_spec 0 (d - 53)); [lia|]);
    rewrite Z.shiftr_div_pow2, iter_xO_value, Z2Pos.id by lia;
    replace (- (d - 53)) with (53 - d) by lia;
    rewrite Z.div_mul by (apply Z.pow_nonzero; lia); cbn [negb].
  - destruct (Z.leb_spec Int.min_int (Zpos p)), (Z.leb_spec (Zpos p) Int.max_int);
      unfold Int.min_int, Int.max_int in *; try lia; reflexivity.
  - change (- Zpos p) with (Zneg p).
    destruct (Z.leb_spec Int.min_int (Zneg p)), (Z.leb_spec (Zneg p) Int.max_int);
      unfold Int.min_int, Int.max_int in *; try lia; reflexivity.
Qed.

(** Rounding a [double] and converting the result to [int] gives the
    nearest integer, a half going away from zero. *)
Lemma double_to_int_round (x : spec_float) :
  rounds_to x (double_to_int cast_overflow (F64.round x)).
Proof.
  destruct x as [s|s| |s m e]; cbn [rounds_to F64.round]; try exact I; [reflexivity|].
  intros n (q & Hq & -> & Hn) Hr.
  destruct (Z.leb_spec 0 e) as [He|He].
  - cbn [double_to_int]. unfold F64.trunc.
    destruct (Z.leb_spec 0 e); [|lia]. rewrite Z.shiftl_mul_pow2 by lia.
    rewrite <- Hn. unfold Int.in_range in Hr.
    destruct (Z.leb_spec Int.min_int (if s then - q else q)); [|lia].
    destruct (Z.leb_spec (if s then - q else q) Int.max_int); [|lia].
    reflexivity.
  - assert (Hq0 : q = F64.round_magnitude m e).
    { pose proof (round_magnitude_nearest m e He) as Hm.
      assert (HP : 0 < 2 ^ (- e)) by (apply Z.pow_pos_nonneg; lia).
      set (q0 := F64.round_magnitude m e) in *. set (P := 2 ^ (- e)) in *.
      destruct (Z.lt_trichotomy q q0) as [Hlt|[Heq|Hgt]]; [exfalso|exact Heq|exfalso].
      - assert ((2 * q + 1) * P <= (2 * q0 - 1) * P)
          by (apply Z.mul_le_mono_nonneg_r; lia).
        lia.
      - assert ((2 * q0 + 1) * P <= (2 * q - 1) * P)
          by (apply Z.mul_le_mono_nonneg_r; lia).
        lia. }
    cbv zeta. rewrite <- Hq0. apply double_to_int_of_integer. exact Hr.
Qed.

(** C2. [calculate_focal_point] returns, per axis, the offset
    [round(center - targetDimension / 2)] clamped between 0 and
    [imageDimension - targetDimension], where [center = (fp *
    inDimension) / factor] and [factor] is the smaller of [inW /
    targetW] and [inH / targetH]: the factor is one of the two ratios
    and not above either; the offset is the integer nearest to the
    difference, a half going away from zero; the clamp gives the nearer
    bound for an offset outside the bounds and the offset itself inside
    (with an image smaller than the target, the upper bound).  Every
    finite value has exactly one nearest integer, and an [int] made a
    [double] has itself.  With
    focal point (0.5, 0.5), a 200x200 original, a 100x100 target and a
    100x100 image: both ratios and the factor are 2, both centers are
    50, both offsets are 0 before the clamp, and the result is (0, 0).
    Three more runs: a 400x200 original with a 100x100 target and a
    200x100 image gives (50, 0) (the factor is the smaller ratio, 2);
    focal point (1.0, 0.5) on a 6x6 original with a 3x3 target and a 9x9
    image gives (2, 0) (1.5 rounds to 2); focal point (0, 0) with a
    100x100 target and a 50x50 image gives (-50, -50). *)
Theorem calculate_focal_point_steps :
  ∀ (fpx fpy : spec_float)
    (in_width in_height target_width target_height image_width image_height : Z),
    let result := calculate_focal_point cast_overflow fpx fpy in_width in_height
                    target_width target_height image_width image_height in
    let ratio_x := F64.div (F64.of_int in_width) (F64.of_int target_width) in
    let ratio_y := F64.div (F64.of_int in_height) (F64.of_int target_height) in
    let center fp in_dimension factor :=
      F64.div (F64.of_float (F32.mul fp (F32.of_int in_dimension))) factor in
    let half_of dimension := F64.div (F64.of_int dimension) (F64.of_int 2) in
    (∃ (factor : spec_float) (offset_x offset_y : Z),
       smaller_of factor ratio_x ratio_y
       ∧ rounds_to (F64.sub (center fpx in_width factor) (half_of target_width)) offset_x
       ∧ rounds_to (F64.sub (center fpy in_height factor) (half_of target_height)) offset_y
       ∧ clamped offset_x 0 (Int.sub image_width target_width) (fst result)
       ∧ clamped offset_y 0 (Int.sub image_height target_height) (snd result))
    ∧ (Int.in_range (image_width - target_width) →
       Int.sub image_width target_width = image_width - target_width)
    ∧ (Int.in_range (image_height - target_height) →
       Int.sub image_height target_height = image_height - target_height)
    ∧ (∀ s m e, ∃ n, nearest_integer s m e n
                     ∧ ∀ n', nearest_integer s m e n' → n' = n)
    ∧ (∀ z, Int.in_range z → rounds_to (F64.of_int z) z)
    ∧ F64.div (F64.of_int 200) (F64.of_int 100) = F64.of_int 2
    ∧ (∀ f, smaller_of f (F64.of_int 2) (F64.of_int 2) → f = F64.of_int 2)
    ∧ F64.div (F64.of_float (F32.mul F32.half (F32.of_int 200))) (F64.of_int 2)
      = F64.of_int 50
    ∧ (∀ z, rounds_to (F64.sub (F64.of_int 50)
                         (F64.div (F64.of_int 100) (F64.of_int 2))) z → z = 0)
    ∧ (∀ r, clamped 0 0 (Int.sub 100 100) r → r = 0)
    ∧ calculate_focal_point cast_overflow F32.half F32.half 200 200 100 100 100 100
      = (0, 0)
    ∧ calculate_focal_point cast_overflow F32.half F32.half 400 200 100 100 200 100
      = (50, 0)
    ∧ calculate_focal_point cast_overflow F32.one F32.half 6 6 3 3 9 9 = (2, 0)
    ∧ calculate_focal_point cast_overflow (S754_zero false) (S754_zero false)
        200 200 100 100 50 50
      = (-50, -50).
Proof.
  intros fpx fpy in_width in_height target_width target_height image_width
    image_height result ratio_x ratio_y center half_of.
  split.
  { exists (F64.min ratio_x ratio_y).
    exists (double_to_int cast_overflow
              (F64.round (F64.sub (center fpx in_width (F64.min ratio_x ratio_y))
                            (half_of target_width)))).
    exists (double_to_int cast_overflow
              (F64.round (F64.sub (center fpy in_height (F64.min ratio_x ratio_y))
                            (half_of target_height)))).
    split; [apply F64_min_smaller_of|].
    split; [apply double_to_int_round|]. split; [apply double_to_int_round|].
    split; apply clamp_clamped. }
  split; [apply Int_sub_exact|]. split; [apply Int_sub_exact|].
  split.
  { intros s m e. destruct (nearest_integer_exists s m e) as [n Hn].
    exists n. split; [exact Hn|].
    intros n' Hn'. exact (nearest_integer_unique s m e n' n Hn' Hn). }
  split.
  { intros z Hz. apply of_int_rounds_to, Hz. }
  split; [vm_compute; reflexivity|].
  split; [intros f ([->| ->] & _); reflexivity|].
  split; [vm_compute; reflexivity|].
  split; [intros z Hz; vm_compute in Hz; exact Hz|].
  split.
  { intros r [Hr _]. change (Int.sub 100 100) with 0 in Hr.
    destruct (Hr ltac:(lia)) as [? _]. lia. }
  repeat split; vm_compute; reflexivity.
Qed.

(** C10. For any focal point, also outside [[0, 1]] or not a number:
    when every dimension is at least 1 and the image is at least as
    large as the target, the offsets returned lie in [[0, image_width -
    target_width]] and [[0, image_height - target_height]].  When the
    image is smaller than the target on an axis the bound cannot hold
    (no offset lies between 0 and a negative number): a 50x50 image with
    a 100x100 target gets the offsets (-50, -50). *)
Theorem calculate_focal_point_in_bounds :
  (∀ (fpx fpy : spec_float)
     (in_width in_height target_width target_height image_width image_height : Z),
     Int.in_range image_width → Int.in_range image_height →
     1 <= target_width → 1 <= target_height →
     1 <= in_width → 1 <= in_height →
     target_width <= image_width → target_height <= image_height →
     let r := calculate_focal_point cast_overflow fpx fpy in_width in_height
                target_width target_height image_width image_height in
     0 <= fst r <= image_width - target_width
     ∧ 0 <= snd r <= image_height - target_height)
  ∧ (∀ (fpx fpy : spec_float)
       (in_width in_height target_width target_height image_width image_height : Z),
       image_width < target_width ∨ image_height < target_height →
       let r := calculate_focal_point cast_overflow fpx fpy in_width in_height
                  target_width target_height image_width image_height in
       ¬ (0 <= fst r <= image_width - target_width
          ∧ 0 <= snd r <= image_height - target_height))
  ∧ calculate_focal_point cast_overflow F32.half F32.half 200 200 100 100 50 50
    = (-50, -50).
Proof.
  split; [|split].
  - intros fpx fpy inW inH tW tH iW iH HiW HiH HtW HtH _ _ HW HH r.
    unfold r, calculate_focal_point. cbn [fst snd].
    unfold Int.in_range, Int.min_int, Int.max_int in HiW, HiH.
    rewrite !Int_sub_exact
      by (unfold Int.in_range, Int.min_int, Int.max_int; lia).
    split; apply clamp_within; lia.
  - intros fpx fpy inW inH tW tH iW iH Hsmall r. lia.
  - vm_compute. reflexivity.
Qed.

End FocalPoint.

Lemma calculate_focal_point_in_bounds_witness :
  0 <= fst (calculate_focal_point (λ _, Int.min_int) (S754_infinity false) S754_nan
              300 200 120 80 150 100) <= 150 - 120
  ∧ 0 <= snd (calculate_focal_point (λ _, Int.min_int) (S754_infinity false) S754_nan
                300 200 120 80 150 100) <= 100 - 80.
Proof.
  refine (proj1 (calculate_focal_point_in_bounds (λ _, Int.min_int))
            (S754_infinity false) S754_nan 300 200 120 80 150 100 _ _ _ _ _ _ _ _);
    unfold Int.in_range, Int.min_int, Int.max_int; lia.
Defined.

(** ** Metadata introspector *)

Lemma concat_trailing (l : list string) (x : string) :
  String.concat "," (l ++ [x]) = with_commas l +:+ x.
Proof.
  induction l as [|y l IH]; [reflexivity|].
  change (String.concat "," ((y :: l) ++ [x]))
    with (match l ++ [x] with
          | [] => y
          | _ :: _ => y +:+ "," +:+ String.concat "," (l ++ [x])
          end).
  destruct (l ++ [x]) eqn:E; [destruct l; discriminate|].
  rewrite IH. cbn [with_commas foldr]. rewrite !string_app_assoc. reflexivity.
Qed.

Lemma with_commas_filter_cons {A : Type} (P : A → bool) (f : A → string) (k : A)
    (l : list A) :
  with_commas (f <$> List.filter P (k :: l))
    = (if P k then f k +:+ "," else EmptyString)
        +:+ with_commas (f <$> List.filter P l).
Proof.
  cbn [List.filter]. destruct (P k); [|reflexivity].
  cbn [fmap list_fmap with_commas foldr]. rewrite !string_app_assoc. reflexivity.
Qed.

Lemma write_delays_concat (delays : list Z) :
  ∀ json, write_delays json delays = json +:+ String.concat "," (pretty <$> delays).
Proof.
  induction delays as [|d delays IH]; intros json.
  - cbn. symmetry. apply string_app_nil_r.
  - destruct delays as [|d' delays]; [reflexivity|].
    change (write_delays json (d :: d' :: delays))
      with (write_delays (json +:+ pretty d +:+ ",") (d' :: delays)).
    rewrite IH.
    change (String.concat "," (pretty <$> d :: d' :: delays))
      with (pretty d +:+ "," +:+ String.concat "," (pretty <$> d' :: delays)).
    rewrite !string_app_assoc. reflexivity.
Qed.

Lemma is_Some_bind {A B : Type} (m : option A) (f : A → option B) :
  is_Some m → (∀ x, is_Some (f x)) → is_Some (m ≫= f).
Proof. intros [x ->] Hf. apply Hf. Qed.

Lemma is_Some_guarded {A : Type} (c : bool) (get : option A) (body : A → string)
    (prev : string) :
  (c = true → is_Some get) →
  is_Some (if c then get ≫= (λ x, Some (body x)) else Some prev).
Proof.
  destruct c; [|eauto]. intros H. destruct (H eq_refl) as [x ->]. cbn. eauto.
Qed.

Section IntrospectorProofs.

Variable cast_overflow : spec_float → Z.

Ltac json_step image image_type H k :=
  match type of H with
  | (if ?c then ?get ≫= _ else Some ?prev) = Some ?next =>
      let E := fresh "E" in
      assert (E : next = prev +:+ (if key_present image k
                                   then json_member cast_overflow image image_type k +:+ ","
                                   else EmptyString));
      [ unfold json_member; cbn [key_present key_name key_value];
        destruct c;
        [ destruct get; [|discriminate H];
          cbn [mbind option_bind] in H; injection H as <-;
          cbn [int_text from_option id];
          rewrite ?write_delays_concat, !string_app_assoc; reflexivity
        | injection H as <-; symmetry; apply string_app_nil_r ]
      | clear H ]
  end.

Lemma image_to_json_members (image : Header.t) (image_type : ImageType.t)
    (doc : string) :
  image_to_json cast_overflow image image_type = Some doc →
  doc = "{" +:+ String.concat ","
                  (json_member cast_overflow image image_type
                     <$> List.filter (key_present image) json_keys)
            +:+ "}".
Proof.
  intros H. unfold image_to_json in H. cbv zeta in H.
  match type of H with
  | context [if has_density image then ?a +:+ ?b else ?a] =>
      set (json0 := a) in H;
      assert (Ed : (if has_density image then json0 +:+ b else json0)
                   = json0 +:+ (if key_present image KDensity
                                then json_member cast_overflow image image_type KDensity
                                       +:+ ","
                                else EmptyString))
        by (unfold json_member; cbn [key_present key_name key_value];
            destruct (has_density image);
            [rewrite !string_app_assoc; reflexivity
            |symmetry; apply string_app_nil_r]);
      rewrite Ed in H; clear Ed
  end.
  apply bind_Some in H as (json1 & H1 & H). json_step image image_type H1 KChromaSubsampling.
  apply bind_Some in H as (json2 & H2 & H). json_step image image_type H2 KPaletteBitDepth.
  apply bind_Some in H as (json3 & H3 & H). json_step image image_type H3 KPages.
  apply bind_Some in H as (json4 & H4 & H). json_step image image_type H4 KPageHeight.
  apply bind_Some in H as (json5 & H5 & H). json_step image image_type H5 KLoop.
  apply bind_Some in H as (json6 & H6 & H). json_step image image_type H6 KDelay.
  apply bind_Some in H as (json7 & H7 & H). json_step image image_type H7 KPagePrimary.
  apply bind_Some in H as (orientation & Ho & H). injection H as <-.
  subst json7 json6 json5 json4 json3 json2 json1.
  change json_keys
    with ([ KFormat; KWidth; KHeight; KSpace; KChannels; KDepth;
            KDensity; KChromaSubsampling; KIsProgressive; KPaletteBitDepth;
            KPages; KPageHeight; KLoop; KDelay; KPagePrimary;
            KHasProfile; KHasAlpha ] ++ [KOrientation]).
  rewrite List.filter_app. change (List.filter (key_present image) [KOrientation])
    with [KOrientation].
  rewrite fmap_app.
  change (json_member cast_overflow image image_type <$> [KOrientation])
    with [json_member cast_overflow image image_type KOrientation].
  rewrite concat_trailing, !with_commas_filter_cons.
  change (with_commas (json_member cast_overflow image image_type
                         <$> List.filter (key_present image) []))
    with EmptyString.
  unfold json_member, json0. cbn [key_present key_name key_value fmap list_fmap].
  rewrite Ho. cbn [int_text].
  rewrite !string_app_assoc, ?string_app_nil_r. reflexivity.
Qed.

Lemma image_to_json_returns (image : Header.t) (image_type : ImageType.t) :
  well_typed image → is_Some (image_to_json cast_overflow image image_type).
Proof.
  intros (Hint & Hstr & Harr). unfold image_to_json. cbv zeta.
  assert (Hi : ∀ name,
            In name ["palette-bit-depth"; VIPS_META_N_PAGES; VIPS_META_PAGE_HEIGHT;
                     "loop"; "heif-primary"; VIPS_META_ORIENTATION] →
            get_typeof image name = true → is_Some (get_int image name)).
  { intros name Hn. apply Hint, list_elem_of_In, Hn. }
  apply is_Some_bind; [apply is_Some_guarded, Hstr|intros json1].
  apply is_Some_bind; [apply is_Some_guarded, Hi; cbn; tauto|intros json2].
  apply is_Some_bind; [apply is_Some_guarded, Hi; cbn; tauto|intros json3].
  apply is_Some_bind; [apply is_Some_guarded, Hi; cbn; tauto|intros json4].
  apply is_Some_bind; [apply is_Some_guarded, Hi; cbn; tauto|intros json5].
  apply is_Some_bind; [apply is_Some_guarded, Harr|intros json6].
  apply is_Some_bind; [apply is_Some_guarded, Hi; cbn; tauto|intros json7].
  apply is_Some_bind; [|intros orientation; eexists; reflexivity].
  unfold exif_orientation.
  destruct (get_typeof image VIPS_META_ORIENTATION) eqn:Ho; [|eexists; reflexivity].
  apply Hi; [cbn; tauto|exact Ho].
Qed.

Lemma list_filter_sublist {A : Type} (P : A → bool) (l : list A) :
  sublist (List.filter P l) l.
Proof.
  induction l as [|x l IH]; [constructor|].
  cbn [List.filter]. destruct (P x); constructor; exact IH.
Qed.

(** C6. The document [image_to_json] returns is the object whose
    members are, in the fixed order format, width, height, space,
    channels, depth, density, chromaSubsampling, isProgressive,
    paletteBitDepth, pages, pageHeight, loop, delay, pagePrimary,
    hasProfile, hasAlpha, orientation, the keys whose backing data is
    present: a conditional key is there exactly when its tag (or the
    density) is, the ten unconditional keys always are.  It returns a
    document whenever the tags it reads have the type it reads them at.
    An image whose only optional data are the density and the delays
    gets density before delay and both before hasProfile. *)
Theorem image_to_json_key_order :
  ∀ (image : Header.t) (image_type : ImageType.t),
    let emitted := List.filter (key_present image) json_keys in
    (∀ doc, image_to_json cast_overflow image image_type = Some doc →
       doc = "{" +:+ String.concat ","
                       (json_member cast_overflow image image_type <$> emitted)
                 +:+ "}")
    ∧ (well_typed image → is_Some (image_to_json cast_overflow image image_type))
    ∧ sublist emitted json_keys
    ∧ (∀ k, In k emitted ↔ key_present image k = true)
    ∧ (∀ k, In k always_present → In k emitted)
    ∧ key_name <$> json_keys
      = [ "format"; "width"; "height"; "space"; "channels"; "depth"; "density";
          "chromaSubsampling"; "isProgressive"; "paletteBitDepth"; "pages";
          "pageHeight"; "loop"; "delay"; "pagePrimary"; "hasProfile"; "hasAlpha";
          "orientation" ]
    ∧ List.filter (key_present animation) json_keys
      = [ KFormat; KWidth; KHeight; KSpace; KChannels; KDepth; KDensity;
          KIsProgressive; KDelay; KHasProfile; KHasAlpha; KOrientation ]
    ∧ image_to_json cast_overflow animation ImageType.Gif
      = Some (with_dquotes
                "{'format':'gif','width':30,'height':120,'space':'srgb','channels':4,'depth':'uchar','density':76,'isProgressive':false,'delay':[100,100,40],'hasProfile':false,'hasAlpha':true,'orientation':0}").
Proof.
  intros image image_type emitted.
  assert (Hin : ∀ k, In k emitted ↔ key_present image k = true).
  { intros k. unfold emitted. rewrite List.filter_In.
    split; [tauto|]. intros Hk. split; [|exact Hk].
    destruct k; cbn; tauto. }
  split; [intros doc; apply image_to_json_members|].
  split; [apply image_to_json_returns|].
  split; [apply list_filter_sublist|].
  split; [exact Hin|].
  split.
  { intros k Hk. apply Hin. cbn in Hk.
    repeat (destruct Hk as [<-|Hk]; [reflexivity|]). destruct Hk. }
  split; [reflexivity|].
  split; vm_compute; reflexivity.
Qed.

End IntrospectorProofs.

Lemma image_to_json_key_order_witness :
  image_to_json (λ _, Int.min_int) animation ImageType.Gif
  = Some ("{" +:+ String.concat ","
                    (json_member (λ _, Int.min_int) animation ImageType.Gif
                       <$> List.filter (key_present animation) json_keys)
              +:+ "}").
Proof.
  assert (Hwt : well_typed animation).
  { split; [|split].
    - intros name Hn Ht. exfalso. revert Ht.
      unfold VIPS_META_N_PAGES, VIPS_META_PAGE_HEIGHT, VIPS_META_ORIENTATION in Hn.
      apply list_elem_of_In in Hn. cbn in Hn.
      repeat (destruct Hn as [<-|Hn]; [vm_compute; discriminate|]). destruct Hn.
    - vm_compute. discriminate.
    - intros _. vm_compute. eexists. reflexivity. }
  destruct (proj1 (proj2 (image_to_json_key_order (λ _, Int.min_int) animation
                            ImageType.Gif)) Hwt) as [doc Hdoc].
  rewrite Hdoc. f_equal.
  exact (proj1 (image_to_json_key_order (λ _, Int.min_int) animation ImageType.Gif)
           doc Hdoc).
Defined.

(** * Further properties *)

(** ** [escape_string] *)

Lemma escape_char_cases (c : ascii) :
  (is_escaped_char c = true ∧ (2 <= String.length (escape_char c))%nat)
  ∨ (is_escaped_char c = false ∧ escape_char c = String c EmptyString).
Proof.
  unfold is_escaped_char, escaped_chars, escape_char. cbn [existsb].
  destruct (Ascii.eqb c (chr 0)); [left; split; [reflexivity|cbn; lia]|].
  destruct (Ascii.eqb c (chr 1)); [left; split; [reflexivity|cbn; lia]|].
  destruct (Ascii.eqb c (chr 10)); [left; split; [reflexivity|cbn; lia]|].
  destruct (Ascii.eqb c (chr 31)); [left; split; [reflexivity|cbn; lia]|].
  destruct (Ascii.eqb c (chr 34)); [left; split; [reflexivity|cbn; lia]|].
  destruct (Ascii.eqb c (chr 92)); [left; split; [reflexivity|cbn; lia]|].
  right. split; reflexivity.
Qed.

Lemma string_length_app (a b : string) :
  String.length (a +:+ b) = (String.length a + String.length b)%nat.
Proof.
  induction a as [|x a IH]; [reflexivity|].
  change (S (String.length (a +:+ b)) = S (String.length a + String.length b)).
  rewrite IH. reflexivity.
Qed.

Lemma chars_app (a b : string) : chars (a +:+ b) = chars a ++ chars b.
Proof.
  induction a as [|x a IH]; [reflexivity|].
  change (x :: chars (a +:+ b) = x :: (chars a ++ chars b)).
  rewrite IH. reflexivity.
Qed.

Lemma unescape_escape_char (c : ascii) (t : string) :
  unescape_string (escape_char c +:+ t) = String c <$> unescape_string t.
Proof.
  unfold escape_char.
  destruct (Ascii.eqb_spec c (chr 0)) as [->|H0]; [reflexivity|].
  destruct (Ascii.eqb_spec c (chr 1)) as [->|H1]; [reflexivity|].
  destruct (Ascii.eqb_spec c (chr 10)) as [->|H10]; [reflexivity|].
  destruct (Ascii.eqb_spec c (chr 31)) as [->|H31]; [reflexivity|].
  destruct (Ascii.eqb_spec c (chr 34)) as [->|H34]; [reflexivity|].
  destruct (Ascii.eqb_spec c (chr 92)) as [->|H92]; [reflexivity|].
  change (String c EmptyString +:+ t) with (String c t).
  cbn [unescape_string].
  destruct (Ascii.eqb_spec c (chr 92)); [contradiction|reflexivity].
Qed.

Lemma escape_string_length_le (s : string) :
  (String.length s <= String.length (escape_string s))%nat.
Proof.
  induction s as [|c s IH]; [reflexivity|].
  cbn [escape_string]. rewrite string_length_app. cbn [String.length].
  destruct (escape_char_cases c) as [[_ Hl]|[_ ->]]; cbn [String.length]; lia.
Qed.

(** X1. Escaping is done character by character: the escape of a
    concatenation is the concatenation of the escapes. *)
Theorem escape_string_app :
  ∀ a b : string, escape_string (a +:+ b) = escape_string a +:+ escape_string b.
Proof.
  intros a b. induction a as [|c a IH]; [reflexivity|].
  change (escape_char c +:+ escape_string (a +:+ b)
          = (escape_char c +:+ escape_string a) +:+ escape_string b).
  rewrite IH, string_app_assoc. reflexivity.
Qed.

(** X2. Nothing is lost in escaping: reading the escapes back gives the
    original string, so two different strings never have the same
    escape. *)
Theorem escape_string_round_trip :
  (∀ s : string, unescape_string (escape_string s) = Some s)
  ∧ (∀ s t : string, escape_string s = escape_string t → s = t).
Proof.
  assert (Hrt : ∀ s : string, unescape_string (escape_string s) = Some s).
  { induction s as [|c s IH]; [reflexivity|].
    cbn [escape_string]. rewrite unescape_escape_char, IH. reflexivity. }
  split; [exact Hrt|].
  intros s t Heq. apply (f_equal unescape_string) in Heq.
  rewrite !Hrt in Heq. injection Heq as ->. reflexivity.
Qed.

(** X3. The escape of a string holds no NUL, no SOH (0x01), no newline
    and no unit separator (0x1f) character, and it is never shorter than
    the string. *)
Theorem escape_string_no_raw_control :
  ∀ s : string,
    Forall (λ c, c ≠ chr 0 ∧ c ≠ chr 1 ∧ c ≠ chr 10 ∧ c ≠ chr 31) (chars (escape_string s))
    ∧ (String.length s <= String.length (escape_string s))%nat.
Proof.
  intros s. split; [|apply escape_string_length_le].
  induction s as [|c s IHc]; [constructor|].
  cbn [escape_string]. rewrite chars_app.
  - apply Forall_app. split; [|exact IHc].
    unfold escape_char.
    destruct (Ascii.eqb_spec c (chr 0));
      [repeat constructor; discriminate|].
    destruct (Ascii.eqb_spec c (chr 1));
      [repeat constructor; discriminate|].
    destruct (Ascii.eqb_spec c (chr 10));
      [repeat constructor; discriminate|].
    destruct (Ascii.eqb_spec c (chr 31));
      [repeat constructor; discriminate|].
    destruct (Ascii.eqb_spec c (chr 34));
      [repeat constructor; discriminate|].
    destruct (Ascii.eqb_spec c (chr 92));
      [repeat constructor; discriminate|].
    repeat constructor; assumption.
Qed.

(** X4. Escaping leaves a string as it is exactly when the string has
    none of the six characters NUL, 0x01, newline, 0x1f, double quote
    and backslash; every other character, the other control characters
    included, passes through unchanged. *)
Theorem escape_string_identity_iff :
  ∀ s : string,
    escape_string s = s ↔ Forall (λ c, is_escaped_char c = false) (chars s).
Proof.
  intros s. split.
  - induction s as [|c s IH]; [constructor|].
    cbn [escape_string chars]. intros Heq.
    destruct (escape_char_cases c) as [[_ Hl]|[Hc Hs]].
    + exfalso. apply (f_equal String.length) in Heq.
      rewrite string_length_app in Heq. cbn [String.length] in Heq.
      pose proof (escape_string_length_le s). lia.
    + rewrite Hs in Heq. change (String c (escape_string s) = String c s) in Heq.
      injection Heq as Heq. constructor; [exact Hc|apply IH, Heq].
  - induction s as [|c s IH]; [reflexivity|].
    cbn [escape_string chars]. intros Hall.
    apply Forall_cons in Hall as [Hc Hall].
    destruct (escape_char_cases c) as [[Hc' _]|[_ ->]]; [congruence|].
    change (String c (escape_string s) = String c s). rewrite IH by exact Hall.
    reflexivity.
Qed.

(** ** Rotation and format tables *)

(** X5. For the angles 0, 90, 180 and 270 the rotation returned makes
    [angle / 90] quarter turns; every other angle, a multiple of 90 from
    360 on included, gets no rotation (the angle is not reduced modulo
    360). *)
Theorem resolve_angle_rotation_quarter_turns :
  ∀ angle : Z,
    (In angle [0; 90; 180; 270] →
       90 * quarter_turns (resolve_angle_rotation angle) = angle)
    ∧ (¬ In angle [90; 180; 270] → resolve_angle_rotation angle = VIPS_ANGLE_D0)
    ∧ (360 <= angle → resolve_angle_rotation angle = VIPS_ANGLE_D0).
Proof.
  intros angle. unfold resolve_angle_rotation. cbn [In].
  destruct (Z.eqb_spec angle 90) as [->|]; [cbn; repeat split; intros; try lia; tauto|].
  destruct (Z.eqb_spec angle 180) as [->|]; [cbn; repeat split; intros; try lia; tauto|].
  destruct (Z.eqb_spec angle 270) as [->|]; [cbn; repeat split; intros; try lia; tauto|].
  cbn [quarter_turns]. repeat split; intros; try reflexivity. lia.
Qed.

(** X6. The output chosen for an image type is one of Jpeg, Png, Webp,
    Avif, Tiff, Gif (never Json, never a value outside the enumeration),
    so its extension is never [.json]; it is Png exactly for the types
    Png, Svg, Pdf, Magick and Unknown; and a type that supports an alpha
    channel or several pages never gets the Jpeg output. *)
Theorem to_output_encodable :
  ∀ image_type : ImageType.t,
    In (to_output image_type)
       [Output.Jpeg; Output.Png; Output.Webp; Output.Avif; Output.Tiff; Output.Gif]
    ∧ determine_image_extension (to_output image_type) ≠ ".json"
    ∧ (to_output image_type = Output.Png
       ↔ In image_type [ImageType.Png; ImageType.Svg; ImageType.Pdf;
                        ImageType.Magick; ImageType.Unknown])
    ∧ (support_alpha_channel image_type = true
       ∨ support_multi_pages image_type = true →
       to_output image_type ≠ Output.Jpeg).
Proof.
  intros image_type.
  destruct image_type; cbn; repeat split; intros; try tauto; try discriminate;
    repeat match goal with
           | H : _ ∨ _ |- _ => destruct H
           end; try discriminate; try contradiction.
Qed.

(** X7. The extension tells the output apart: two of the seven outputs
    with the same extension are the same output; every extension is a
    dot followed by at least one character, and a value outside the
    enumeration gets the extension of Png. *)
Theorem determine_image_extension_injective :
  (∀ a b : Output.t,
     In a Output.named → In b Output.named →
     determine_image_extension a = determine_image_extension b → a = b)
  ∧ (∀ o : Output.t,
       ∃ rest, determine_image_extension o = "." +:+ rest
               ∧ (1 <= String.length rest)%nat)
  ∧ (∀ v : Z, determine_image_extension (Output.Unlisted v)
              = determine_image_extension Output.Png).
Proof.
  split; [|split].
  - intros a b Ha Hb. cbn in Ha, Hb.
    repeat (destruct Ha as [<-|Ha]; [|]); try destruct Ha;
      repeat (destruct Hb as [<-|Hb]; [|]); try destruct Hb;
      cbn; intros H; try reflexivity; discriminate H.
  - intros o. destruct o; eexists; (split; [reflexivity|cbn; lia]).
  - reflexivity.
Qed.

(** X8. The identifier tells the image type apart: two image types with
    the same identifier are the same type. *)
Theorem image_type_id_injective :
  ∀ a b : ImageType.t, image_type_id a = image_type_id b → a = b.
Proof.
  intros a b. destruct a, b; cbn; intros H; try reflexivity; discriminate H.
Qed.

Lemma image_type_id_injective_witness : ImageType.Heif = ImageType.Heif.
Proof.
  apply image_type_id_injective. reflexivity.
Defined.

(** ** Savers mask *)

Lemma supported_savers_string_concat (decl : Output.t → Z) (msk : Z) :
  supported_savers_string decl msk
    = String.concat ", " (savers_of decl msk saver_bits).
Proof.
  unfold supported_savers_string.
  exact (savers_loop_concat decl msk 7 1 [] ltac:(lia) (Forall_nil_2 _)).
Qed.

Lemma savers_of_ext (decl : Output.t → Z) (msk msk' : Z) (bits : list Z) :
  Forall (λ i, Z.testbit msk i = Z.testbit msk' i) bits →
  savers_of decl msk bits = savers_of decl msk' bits.
Proof.
  induction 1 as [|i bits Hi _ IH]; [reflexivity|].
  rewrite (savers_of_cons decl msk), (savers_of_cons decl msk'), IH. f_equal.
  unfold savers_of. rewrite !filter_cons, !filter_nil, Hi. reflexivity.
Qed.

Lemma savers_of_nil_iff (decl : Output.t → Z) (msk : Z) (bits : list Z) :
  savers_of decl msk bits = [] ↔ Forall (λ i, Z.testbit msk i = false) bits.
Proof.
  induction bits as [|i bits IH]; [split; [constructor|reflexivity]|].
  rewrite (savers_of_cons decl msk), Forall_cons, <- IH.
  unfold savers_of at 1. rewrite filter_cons, filter_nil.
  destruct (decide (Z.testbit msk i = true)) as [Hb|Hb].
  - cbn [fmap list_fmap app]. split; [discriminate|]. intros [Hf _]. congruence.
  - cbn [fmap list_fmap app]. apply not_true_is_false in Hb. tauto.
Qed.

(** X9. Only the bits 1 to 7 of the mask count: two masks that agree on
    them give the same string, so bit 0 and the bits from 8 on are
    ignored ([msk] and [msk & 254] give the same string); and the string
    is empty exactly when none of the bits 1 to 7 is set. *)
Theorem supported_savers_string_bits_1_to_7 :
  ∀ (decl : Output.t → Z) (msk : Z),
    (∀ msk', (∀ i, 1 <= i <= 7 → Z.testbit msk i = Z.testbit msk' i) →
       supported_savers_string decl msk = supported_savers_string decl msk')
    ∧ supported_savers_string decl msk = supported_savers_string decl (Z.land msk 254)
    ∧ (supported_savers_string decl msk = EmptyString
       ↔ ∀ i, 1 <= i <= 7 → Z.testbit msk i = false).
Proof.
  intros decl msk.
  assert (Hbits : ∀ P : Z → Prop, Forall P saver_bits ↔ ∀ i, 1 <= i <= 7 → P i).
  { intros P. unfold saver_bits. rewrite !Forall_cons, Forall_nil. split.
    - intros (H1 & H2 & H3 & H4 & H5 & H6 & H7 & _) i Hi.
      assert (Hc : i = 1 ∨ i = 2 ∨ i = 3 ∨ i = 4 ∨ i = 5 ∨ i = 6 ∨ i = 7) by lia.
      destruct Hc as [->|[->|[->|[->|[->|[->| ->]]]]]]; assumption.
    - intros H. repeat split; apply H; lia. }
  assert (Hext : ∀ msk', (∀ i, 1 <= i <= 7 → Z.testbit msk i = Z.testbit msk' i) →
            supported_savers_string decl msk = supported_savers_string decl msk').
  { intros msk' Hagree. rewrite !supported_savers_string_concat. f_equal.
    apply savers_of_ext, Hbits, Hagree. }
  split; [exact Hext|]. split.
  - apply Hext. intros i Hi. rewrite Z.land_spec.
    assert (Hc : i = 1 ∨ i = 2 ∨ i = 3 ∨ i = 4 ∨ i = 5 ∨ i = 6 ∨ i = 7) by lia.
    destruct Hc as [->|[->|[->|[->|[->|[->| ->]]]]]];
      cbn [Z.testbit Pos.testbit Z.to_N]; rewrite andb_true_r; reflexivity.
  - rewrite supported_savers_string_concat, <- Hbits, <- savers_of_nil_iff. split.
    + apply concat_empty_iff, savers_of_nonempty.
    + intros ->. reflexivity.
Qed.

(** ** Loader names *)

Lemma prefix_app_r (p s t : string) :
  String.prefix p s = true → String.prefix p (s +:+ t) = true.
Proof.
  revert p. induction s as [|c s IH]; intros p Hp.
  - destruct p; [destruct t; reflexivity|discriminate Hp].
  - destruct p as [|d p]; [reflexivity|].
    change (String c s +:+ t) with (String c (s +:+ t)).
    cbn [String.prefix] in Hp |- *.
    destruct (Ascii.ascii_dec d c); [apply IH, Hp|discriminate Hp].
Qed.

Lemma VIPS_FOREIGN_LOAD_GIF_cases (vmajor vminor vmicro : Z) :
  VIPS_FOREIGN_LOAD_GIF vmajor vminor vmicro = "VipsForeignLoadNsgif"
  ∨ VIPS_FOREIGN_LOAD_GIF vmajor vminor vmicro = "VipsForeignLoadGif".
Proof.
  unfold VIPS_FOREIGN_LOAD_GIF.
  destruct (VIPS_VERSION_AT_LEAST vmajor vminor vmicro 8 11 0); auto.
Qed.

Lemma lookup_loader_match (gif loader prefix : string) (ty : ImageType.t) :
  gif = "VipsForeignLoadNsgif" ∨ gif = "VipsForeignLoadGif" →
  In (prefix, ty) (loader_table gif) → String.prefix prefix loader = true →
  lookup_loader (loader_table gif) loader = ty.
Proof.
  intros Hgif Hin Hp. unfold lookup_loader.
  destruct (List.find (λ entry, String.prefix entry.1 loader) (loader_table gif))
    as [e|] eqn:Hfind.
  - apply find_some in Hfind as [Hin' Hp'].
    rewrite (loader_table_exclusive gif loader e (prefix, ty) Hgif Hin' Hin Hp' Hp).
    reflexivity.
  - apply (find_none _ _ Hfind) in Hin. cbn in Hin. congruence.
Qed.

(** X10. Only the beginning of the loader name counts: once a name is
    recognised, the same name with anything appended is recognised as
    the same type (the File, Buffer and Source loaders of a format are
    one type). *)
Theorem determine_image_type_suffix :
  ∀ (vmajor vminor vmicro : Z) (loader suffix : string),
    determine_image_type vmajor vminor vmicro loader ≠ ImageType.Unknown →
    determine_image_type vmajor vminor vmicro (loader +:+ suffix)
      = determine_image_type vmajor vminor vmicro loader.
Proof.
  intros vmajor vminor vmicro loader suffix. rewrite !determine_image_type_lookup.
  set (gif := VIPS_FOREIGN_LOAD_GIF vmajor vminor vmicro).
  assert (Hgif := VIPS_FOREIGN_LOAD_GIF_cases vmajor vminor vmicro). fold gif in Hgif.
  unfold lookup_loader.
  destruct (List.find (λ entry, String.prefix entry.1 loader) (loader_table gif))
    as [e|] eqn:Hfind; [|contradiction].
  intros _. apply find_some in Hfind as [Hin Hp].
  destruct (List.find (λ entry, String.prefix entry.1 (loader +:+ suffix))
              (loader_table gif)) as [e'|] eqn:Hfind'.
  - apply find_some in Hfind' as [Hin' Hp'].
    rewrite (loader_table_exclusive gif (loader +:+ suffix) e' e Hgif Hin' Hin Hp'
               (prefix_app_r _ _ _ Hp)).
    reflexivity.
  - apply (find_none _ _ Hfind') in Hin. cbn beta in Hin.
    rewrite (prefix_app_r _ _ suffix Hp) in Hin. discriminate.
Qed.

Lemma determine_image_type_suffix_witness :
  determine_image_type 8 15 0 ("VipsForeignLoadJpeg" +:+ "Buffer")
  = determine_image_type 8 15 0 "VipsForeignLoadJpeg".
Proof.
  apply (determine_image_type_suffix 8 15 0 "VipsForeignLoadJpeg" "Buffer").
  vm_compute. discriminate.
Defined.

(** X11. Of the two GIF loader names only the one the build selects is
    recognised: built against libvips 8.11 or later, a name beginning
    with [VipsForeignLoadNsgif] is a Gif and one beginning with
    [VipsForeignLoadGif] is Unknown; built against an earlier libvips it
    is the other way round. *)
Theorem determine_image_type_gif_alternatives :
  ∀ (vmajor vminor vmicro : Z) (rest : string),
    (VIPS_VERSION_AT_LEAST vmajor vminor vmicro 8 11 0 = true →
       determine_image_type vmajor vminor vmicro ("VipsForeignLoadNsgif" +:+ rest)
         = ImageType.Gif
       ∧ determine_image_type vmajor vminor vmicro ("VipsForeignLoadGif" +:+ rest)
         = ImageType.Unknown)
    ∧ (VIPS_VERSION_AT_LEAST vmajor vminor vmicro 8 11 0 = false →
       determine_image_type vmajor vminor vmicro ("VipsForeignLoadGif" +:+ rest)
         = ImageType.Gif
       ∧ determine_image_type vmajor vminor vmicro ("VipsForeignLoadNsgif" +:+ rest)
         = ImageType.Unknown).
Proof.
  intros vmajor vminor vmicro rest.
  split; intros Hv; rewrite !determine_image_type_lookup;
    unfold VIPS_FOREIGN_LOAD_GIF; rewrite Hv; split;
    try (vm_compute; reflexivity).
  - apply (lookup_loader_match _ _ "VipsForeignLoadNsgif"); [auto|cbn; tauto|].
    apply prefix_app_r. reflexivity.
  - apply (lookup_loader_match _ _ "VipsForeignLoadGif"); [auto|cbn; tauto|].
    apply prefix_app_r. reflexivity.
Qed.


(** ** Placement and cropping geometry *)

(** X13. Placing an input inside an output at least as large keeps it
    inside, whatever the anchor: the offsets are between 0 and the free
    space on each axis. *)
Theorem calculate_position_inside :
  ∀ (in_width in_height out_width out_height : Z) (pos : Position.t),
    in_width <= out_width → in_height <= out_height →
    Int.in_range (out_width - in_width) → Int.in_range (out_height - in_height) →
    let r := calculate_position in_width in_height out_width out_height pos in
    0 <= fst r <= out_width - in_width ∧ 0 <= snd r <= out_height - in_height.
Proof.
  intros inW inH outW outH pos HW HH RW RH r. unfold r, calculate_position.
  pose proof (Z.quot_div_nonneg (outW - inW) 2 ltac:(lia) ltac:(lia)) as QW.
  pose proof (Z.quot_div_nonneg (outH - inH) 2 ltac:(lia) ltac:(lia)) as QH.
  destruct pos; cbn [fst snd];
    rewrite ?Int_sub_exact by assumption;
    rewrite ?Int_half_exact by assumption;
    rewrite ?QW, ?QH; clear QW QH; Z.div_mod_to_equations; lia.
Qed.

Lemma calculate_position_inside_witness :
  0 <= fst (calculate_position 50 81 101 90 Position.BottomRight) <= 101 - 50
  ∧ 0 <= snd (calculate_position 50 81 101 90 Position.BottomRight) <= 90 - 81.
Proof.
  apply (calculate_position_inside 50 81 101 90 Position.BottomRight);
    unfold Int.in_range, Int.min_int, Int.max_int; lia.
Defined.

(** X14. Centring splits the free space evenly: the two margins of an
    axis differ by at most one pixel, and when the output is at least as
    large as the input the odd pixel goes to the far (right, bottom)
    side. *)
Theorem calculate_position_centre_even :
  ∀ (in_width in_height out_width out_height : Z),
    Int.in_range (out_width - in_width) → Int.in_range (out_height - in_height) →
    let r := calculate_position in_width in_height out_width out_height
               Position.Centre in
    let right_margin := out_width - in_width - fst r in
    let bottom_margin := out_height - in_height - snd r in
    -1 <= right_margin - fst r <= 1
    ∧ -1 <= bottom_margin - snd r <= 1
    ∧ (in_width <= out_width → fst r <= right_margin)
    ∧ (in_height <= out_height → snd r <= bottom_margin).
Proof.
  intros inW inH outW outH RW RH r. unfold r, calculate_position. cbn [fst snd].
  rewrite !Int_sub_exact by assumption. rewrite !Int_half_exact by assumption.
  pose proof (Z.quot_rem' (outW - inW) 2) as EW.
  pose proof (Z.quot_rem' (outH - inH) 2) as EH.
  pose proof (Z.rem_bound_abs (outW - inW) 2 ltac:(lia)) as BW.
  pose proof (Z.rem_bound_abs (outH - inH) 2 ltac:(lia)) as BH.
  assert (SW : 0 <= outW - inW → 0 <= Z.rem (outW - inW) 2)
    by (intros; apply Z.rem_nonneg; lia).
  assert (SH : 0 <= outH - inH → 0 <= Z.rem (outH - inH) 2)
    by (intros; apply Z.rem_nonneg; lia).
  cbv zeta. repeat split; intros; lia.
Qed.

Lemma calculate_position_centre_even_witness :
  -1 <= (100 - 51 - fst (calculate_position 51 50 100 100 Position.Centre))
        - fst (calculate_position 51 50 100 100 Position.Centre) <= 1.
Proof.
  refine (proj1 (calculate_position_centre_even 51 50 100 100 _ _));
    unfold Int.in_range, Int.min_int, Int.max_int; lia.
Defined.

Section FocalPointMore.

Variable cast_overflow : spec_float → Z.

(** X15. When the image is exactly as wide (as tall) as the target
    there is nothing to choose: the left (top) offset is 0 for every
    focal point and every original size. *)
Theorem calculate_focal_point_no_slack :
  ∀ (fpx fpy : spec_float)
    (in_width in_height target_width target_height image_width image_height : Z),
    let r := calculate_focal_point cast_overflow fpx fpy in_width in_height
               target_width target_height image_width image_height in
    (image_width = target_width → fst r = 0)
    ∧ (image_height = target_height → snd r = 0).
Proof.
  intros fpx fpy inW inH tW tH iW iH r. unfold r, calculate_focal_point.
  cbn [fst snd]. split; intros ->; unfold Int.sub; rewrite Z.sub_diag;
    change (Int.wrap 0) with 0;
    match goal with
    | |- clamp ?v 0 0 = 0 => destruct (clamp_within v 0 ltac:(lia)) as [? _]; lia
    end.
Qed.

End FocalPointMore.

Lemma valid_area_iff (image : VImage) (l t w h : Z) :
  valid_area image l t w h = true
  ↔ 0 <= l ∧ 0 <= t ∧ 0 < w ∧ 0 < h ∧ l + w <= Xsize image ∧ t + h <= Ysize image.
Proof.
  unfold valid_area. rewrite negb_true_iff, !orb_false_iff.
  rewrite !Z.ltb_ge, !Z.leb_gt. lia.
Qed.

Lemma extract_pages_spacing (image : VImage) (l w h : Z) (tops : list Z) :
  tops ≠ [] → 0 < w → 0 < h →
  foldr Z.max 0 (List.map Xsize ((λ t, ExtractArea image l t w h) <$> tops)) = w
  ∧ foldr Z.max 0 (List.map Ysize ((λ t, ExtractArea image l t w h) <$> tops)) = h.
Proof.
  intros Hne Hw Hh. split; apply foldr_max_const; try lia.
  - destruct tops; [contradiction|discriminate].
  - rewrite <- list_fmap_compose. apply Forall_fmap, Forall_forall. reflexivity.
  - destruct tops; [contradiction|discriminate].
  - rewrite <- list_fmap_compose. apply Forall_fmap, Forall_forall. reflexivity.
Qed.

Lemma pick_lookup (f : VImage → option (Z * Z)) (l : list VImage) :
  ∀ k : nat,
    (fix pick (l : list VImage) (k : nat) {struct l} : option (Z * Z) :=
       match l with
       | [] => None
       | page :: l' => match k with
                       | O => f page
                       | S k' => pick l' k'
                       end
       end) l k
    = match l !! k with
      | Some page => f page
      | None => None
      end.
Proof.
  induction l as [|page l IH]; intros [|k]; try reflexivity. apply IH.
Qed.

(** The shape of what the general path returns. *)
Lemma crop_multi_page_general_inv (image : VImage) (left top width height n_pages
    page_height : Z) (r : VImage) :
  ¬ (top = 0 ∧ height = page_height) →
  crop_multi_page image left top width height n_pages page_height = Some r →
  let tops := page_top page_height top <$> seqZ 0 n_pages in
  1 <= n_pages
  ∧ Forall (λ t, valid_area image left t width height = true) tops
  ∧ r = ArrayJoin ((λ t, ExtractArea image left t width height) <$> tops) 1.
Proof.
  intros Hs Hr tops. rewrite (crop_multi_page_general _ _ _ _ _ _ _ Hs) in Hr.
  fold tops in Hr.
  destruct (forallb (λ t, valid_area image left t width height) tops) eqn:Hv;
    [|discriminate].
  destruct (Z.leb_spec 1 n_pages); [|discriminate].
  injection Hr as <-. split; [assumption|]. split; [|reflexivity].
  apply Forall_forall. intros t Ht. rewrite forallb_forall in Hv.
  apply Hv, list_elem_of_In, Ht.
Qed.

(** X16. Page by page, the result shows the cropped rows of the source:
    on the general path the pixel [(x, y)] of the result is the pixel of
    the source at column [x + left] and at row [y mod height] below the
    top of the crop of page [y / height]; on the fast path it is the
    pixel at column [x + left] of the same row [y]. *)
Theorem crop_multi_page_pixels :
  ∀ (image : VImage) (left top width height n_pages page_height : Z) (r : VImage),
    crop_multi_page image left top width height n_pages page_height = Some r →
    ∀ x y : Z,
      0 <= x < width → 0 <= y < Ysize r →
      (¬ (top = 0 ∧ height = page_height) →
         source_at r x y
         = source_at image (x + left)
             (y mod height + page_top page_height top (y / height)))
      ∧ (top = 0 ∧ height = page_height →
         source_at r x y = source_at image (x + left) y).
Proof.
  intros image left top width height n_pages page_height r Hr x y Hx Hy. split.
  - intros Hs.
    destruct (crop_multi_page_general_inv _ _ _ _ _ _ _ _ Hs Hr) as (Hn & Hv & ->).
    set (tops := page_top page_height top <$> seqZ 0 n_pages) in *.
    assert (Hne : tops ≠ []).
    { unfold tops. rewrite seqZ_cons by lia. discriminate. }
    assert (Hpos : 0 < width ∧ 0 < height).
    { destruct tops as [|t tops']; [contradiction|].
      apply Forall_cons in Hv as [Hv _]. apply valid_area_iff in Hv. lia. }
    destruct (extract_pages_spacing image left width height tops Hne
                ltac:(lia) ltac:(lia)) as [HX HY].
    assert (Hlen : length tops = Z.to_nat n_pages).
    { unfold tops. rewrite length_fmap, length_seqZ. reflexivity. }
    cbn [Ysize] in Hy. rewrite HY, length_fmap, Hlen in Hy.
    rewrite Z2Nat.id in Hy by lia. unfold grid_rows in Hy.
    replace (n_pages + 1 - 1) with n_pages in Hy by lia. rewrite Z.div_1_r in Hy.
    cbn [source_at]. rewrite HX, HY, pick_lookup.
    destruct (Z.leb_spec 0 x); [|lia]. destruct (Z.ltb_spec x (width * 1)); [|lia].
    destruct (Z.leb_spec 0 y); [|lia]. cbn [andb].
    rewrite (Z.div_small x width) by lia.
    replace (y / height * 1 + 0) with (y / height) by lia.
    assert (Hrow : 0 <= y / height < n_pages).
    { split; [apply Z.div_pos; lia|apply Z.div_lt_upper_bound; lia]. }
    rewrite list_lookup_fmap. unfold tops. rewrite list_lookup_fmap.
    rewrite lookup_seqZ_lt by lia. cbn [fmap option_fmap option_map].
    rewrite Z2Nat.id by lia. cbn [source_at].
    pose proof (Z.mod_pos_bound x width ltac:(lia)).
    pose proof (Z.mod_pos_bound y height ltac:(lia)).
    destruct (Z.leb_spec 0 (x mod width)); [|lia].
    destruct (Z.ltb_spec (x mod width) width); [|lia].
    destruct (Z.leb_spec 0 (y mod height)); [|lia].
    destruct (Z.ltb_spec (y mod height) height); [|lia].
    cbn [andb]. rewrite (Z.mod_small x width) by lia.
    replace (0 + y / height) with (y / height) by lia. reflexivity.
  - intros Hf. rewrite (crop_multi_page_fast _ _ _ _ _ _ _ Hf) in Hr.
    destruct (valid_area image left 0 width (Ysize image)); [|discriminate].
    injection Hr as <-. cbn [Ysize] in Hy. cbn [source_at].
    destruct (Z.leb_spec 0 x); [|lia]. destruct (Z.ltb_spec x width); [|lia].
    destruct (Z.leb_spec 0 y); [|lia]. destruct (Z.ltb_spec y (Ysize image)); [|lia].
    cbn [andb]. rewrite Z.add_0_r. reflexivity.
Qed.

Lemma crop_multi_page_pixels_witness :
  source_at (ArrayJoin [ExtractArea strip_3x40 5 5 20 30;
                        ExtractArea strip_3x40 5 45 20 30;
                        ExtractArea strip_3x40 5 85 20 30] 1) 7 64
  = source_at strip_3x40 (7 + 5) (64 mod 30 + page_top 40 5 (64 / 30)).
Proof.
  assert (Hr : crop_multi_page strip_3x40 5 5 20 30 3 40
               = Some (ArrayJoin [ExtractArea strip_3x40 5 5 20 30;
                                  ExtractArea strip_3x40 5 45 20 30;
                                  ExtractArea strip_3x40 5 85 20 30] 1))
    by (vm_compute; reflexivity).
  assert (Hx : 0 <= 7 < 20) by lia.
  assert (Hy : 0 <= 64 < Ysize (ArrayJoin [ExtractArea strip_3x40 5 5 20 30;
                                           ExtractArea strip_3x40 5 45 20 30;
                                           ExtractArea strip_3x40 5 85 20 30] 1))
    by (vm_compute; split; [discriminate|reflexivity]).
  assert (Hs : ¬ (5 = 0 ∧ 30 = 40)) by lia.
  exact (proj1 (crop_multi_page_pixels strip_3x40 5 5 20 30 3 40 _ Hr 7 64 Hx Hy) Hs).
Defined.

(** X17. Whenever [crop_multi_page] returns an image, on either path,
    the image is exactly [width] wide. *)
Theorem crop_multi_page_width :
  ∀ (image : VImage) (left top width height n_pages page_height : Z) (r : VImage),
    crop_multi_page image left top width height n_pages page_height = Some r →
    Xsize r = width.
Proof.
  intros image left top width height n_pages page_height r Hr.
  destruct (decide (top = 0 ∧ height = page_height)) as [Hf|Hs].
  - rewrite (crop_multi_page_fast _ _ _ _ _ _ _ Hf) in Hr.
    destruct (valid_area image left 0 width (Ysize image)); [|discriminate].
    injection Hr as <-. reflexivity.
  - destruct (crop_multi_page_general_inv _ _ _ _ _ _ _ _ Hs Hr) as (Hn & Hv & ->).
    set (tops := page_top page_height top <$> seqZ 0 n_pages) in *.
    assert (Hne : tops ≠ []).
    { unfold tops. rewrite seqZ_cons by lia. discriminate. }
    assert (Hpos : 0 < width ∧ 0 < height).
    { destruct tops as [|t tops']; [contradiction|].
      apply Forall_cons in Hv as [Hv _]. apply valid_area_iff in Hv. lia. }
    cbn [Xsize].
    rewrite (proj1 (extract_pages_spacing image left width height tops Hne
                      ltac:(lia) ltac:(lia))).
    lia.
Qed.

Lemma crop_multi_page_width_witness :
  Xsize (ExtractArea strip_3x40 5 0 20 120) = 20.
Proof.
  apply (crop_multi_page_width strip_3x40 5 0 20 40 3 40).
  vm_compute. reflexivity.
Defined.

(** X18. On the general path, with pages of non-negative height and no
    overflow in the page offsets, the call returns an image exactly when
    there is at least one page and the areas of the first and of the
    last page are valid; the pages in between are then valid too.  On
    the fast path the page count plays no role. *)
Theorem crop_multi_page_returns_iff :
  ∀ (image : VImage) (left top width height n_pages page_height : Z),
    0 <= page_height →
    (∀ i, 0 <= i < n_pages →
          Int.in_range (page_height * i) ∧ Int.in_range (page_height * i + top)) →
    (¬ (top = 0 ∧ height = page_height) →
       (is_Some (crop_multi_page image left top width height n_pages page_height)
        ↔ 1 <= n_pages
          ∧ valid_area image left top width height = true
          ∧ valid_area image left (page_height * (n_pages - 1) + top) width height
            = true))
    ∧ (top = 0 ∧ height = page_height →
       ∀ m, crop_multi_page image left top width height m page_height
            = crop_multi_page image left top width height n_pages page_height).
Proof.
  intros image left top width height n_pages page_height Hph Hrange. split.
  - intros Hs. rewrite (crop_multi_page_general _ _ _ _ _ _ _ Hs).
    rewrite (page_tops_exact _ _ _ Hrange).
    set (tops := (λ i, page_height * i + top) <$> seqZ 0 n_pages).
    assert (Hall : forallb (λ t, valid_area image left t width height) tops = true
                   ↔ ∀ i, 0 <= i < n_pages →
                          valid_area image left (page_height * i + top) width height
                          = true).
    { rewrite forallb_forall. split.
      - intros H i Hi. apply H, list_elem_of_In. unfold tops.
        apply list_elem_of_fmap. exists i. split; [reflexivity|].
        apply list_elem_of_lookup. exists (Z.to_nat i).
        rewrite lookup_seqZ_lt by lia. f_equal. lia.
      - intros H t Ht. apply list_elem_of_In in Ht. unfold tops in Ht.
        apply list_elem_of_fmap in Ht as (i & -> & Hi).
        apply list_elem_of_lookup in Hi as (k & Hk).
        apply lookup_seqZ in Hk as [-> Hk]. apply H. lia. }
    split.
    + intros [r Hr].
      destruct (forallb (λ t, valid_area image left t width height) tops) eqn:Hv;
        [|discriminate].
      destruct (Z.leb_spec 1 n_pages); [|discriminate].
      split; [assumption|]. split.
      * replace top with (page_height * 0 + top) at 1 by lia.
        apply (proj1 Hall eq_refl). lia.
      * apply (proj1 Hall eq_refl). lia.
    + intros (Hn & H0 & Hlast).
      assert (Hv : forallb (λ t, valid_area image left t width height) tops = true).
      { apply Hall. intros i Hi. apply valid_area_iff.
        apply valid_area_iff in H0, Hlast. nia. }
      rewrite Hv. destruct (Z.leb_spec 1 n_pages); [|lia]. eexists. reflexivity.
  - intros Hf m. rewrite !crop_multi_page_fast by exact Hf. reflexivity.
Qed.

Lemma crop_multi_page_returns_iff_witness :
  is_Some (crop_multi_page strip_3x40 5 5 20 30 3 40).
Proof.
  assert (Hph : 0 <= 40) by lia.
  assert (Hrange : ∀ i, 0 <= i < 3 →
            Int.in_range (40 * i) ∧ Int.in_range (40 * i + 5)).
  { intros i Hi. unfold Int.in_range, Int.min_int, Int.max_int. lia. }
  assert (Hs : ¬ (5 = 0 ∧ 30 = 40)) by lia.
  apply (proj1 (crop_multi_page_returns_iff strip_3x40 5 5 20 30 3 40 Hph Hrange) Hs).
  split; [lia|]. split; vm_compute; reflexivity.
Defined.

(** ** Deadline governor, over a run of notifications *)

Lemma image_eval_cb_effect (image : VipsImage) (p : VipsProgress) (timeout : nat) :
  image_eval_cb image p timeout = image
  ∨ ∃ b, cells image !! timeout = Some b ∧ 0 < b ∧ b <= run p.
Proof.
  unfold image_eval_cb. destruct (cells image !! timeout) as [b|]; [|left; reflexivity].
  destruct (Z.ltb_spec 0 b); [|left; reflexivity].
  destruct (Z.leb_spec b (run p)); [|left; reflexivity].
  right. exists b. auto.
Qed.

Lemma eval_ticks_cases (timeout : nat) (ticks : list VipsProgress) :
  ∀ image : VipsImage,
    eval_ticks image timeout ticks = image
    ∨ ∃ p b, In p ticks ∧ cells image !! timeout = Some b ∧ 0 < b ∧ b <= run p
             ∧ eval_ticks image timeout ticks = image_eval_cb image p timeout.
Proof.
  induction ticks as [|q ticks IH]; intros image; [left; reflexivity|].
  change (eval_ticks image timeout (q :: ticks))
    with (eval_ticks (image_eval_cb image q timeout) timeout ticks).
  destruct (image_eval_cb_effect image q timeout) as [Hsame|(b & Hc & Hb & Hq)].
  - rewrite Hsame. destruct (IH image) as [Hq|(p & b & Hin & Hrest)]; [left; exact Hq|].
    right. exists p, b. split; [right; exact Hin|exact Hrest].
  - right. exists q, b. split; [left; reflexivity|]. repeat split; try assumption.
    apply (eval_ticks_quiet _ timeout 0); [|right; lia].
    rewrite (image_eval_cb_trip image q timeout b Hc Hb Hq). cbn [cells].
    apply list_lookup_insert_eq, lookup_lt_is_Some. eauto.
Qed.

(** X19. Whatever notifications the callback receives for one cell, it
    reports at most once: the error log keeps its lines and gains at
    most one; a kill flag that is set stays set; the cells of other
    registrations, the connected handlers and the progress switch are
    never touched. *)
Theorem eval_ticks_reports_at_most_once :
  ∀ (image : VipsImage) (timeout : nat) (ticks : list VipsProgress),
    let final := eval_ticks image timeout ticks in
    (∃ new, error_log final = error_log image ++ new ∧ (length new <= 1)%nat)
    ∧ (kill image = true → kill final = true)
    ∧ (∀ other, other ≠ timeout → cells final !! other = cells image !! other)
    ∧ length (cells final) = length (cells image)
    ∧ eval_handlers final = eval_handlers image
    ∧ progress_signal final = progress_signal image.
Proof.
  intros image timeout ticks final. unfold final.
  destruct (eval_ticks_cases timeout ticks image)
    as [->|(p & b & _ & Hc & Hb & Hp & ->)].
  - split; [exists []; rewrite app_nil_r; auto|]. repeat split; auto.
  - rewrite (image_eval_cb_trip image p timeout b Hc Hb Hp).
    cbn [error_log kill cells eval_handlers progress_signal].
    split; [eexists; split; [reflexivity|cbn; lia]|].
    split; [reflexivity|]. split; [|split; [apply length_insert|split; reflexivity]].
    intros other Hne. apply list_lookup_insert_ne. congruence.
Qed.

Lemma setup_timeout_handler_positive (image : VipsImage) (t : Z) :
  0 < t →
  setup_timeout_handler image t
    = mkImage (kill image) true (cells image ++ [t])
        (eval_handlers image ++ [length (cells image)]) (error_log image).
Proof.
  intros Ht. unfold setup_timeout_handler. destruct (Z.ltb_spec 0 t); [|lia].
  unfold VIPS_NEW, store_cell, g_signal_connect_eval, vips_image_set_progress.
  cbn [kill progress_signal cells eval_handlers error_log].
  rewrite (insert_app_r_alt (cells image) [0] (length (cells image)) t) by lia.
  rewrite Nat.sub_diag. reflexivity.
Qed.

Lemma first_reaching (b : Z) (ticks : list VipsProgress) :
  Exists (λ p, b <= run p) ticks →
  ∃ before p after, ticks = before ++ p :: after
                    ∧ Forall (λ q, run q < b) before ∧ b <= run p.
Proof.
  induction ticks as [|q ticks IH]; intros Hex; [inversion Hex|].
  destruct (Z.le_gt_cases b (run q)) as [Hq|Hq].
  - exists [], q, ticks. split; [reflexivity|]. split; [constructor|exact Hq].
  - apply Exists_cons in Hex as [Hex|Hex]; [lia|].
    destruct (IH Hex) as (before & p & after & -> & Hb & Hp).
    exists (q :: before), p, after. split; [reflexivity|].
    split; [constructor; [lia|exact Hb]|exact Hp].
Qed.

(** X20. Setting up a positive timeout and then delivering progress
    notifications to the registered callback: if some notification
    reports at least the timeout, the image ends up killed, with exactly
    one new error line and the stored budget at 0; if none does, the
    image stays as the registration left it, neither killed by the
    governor nor with a new error. *)
Theorem setup_then_eval :
  ∀ (image : VipsImage) (process_timeout : Z) (ticks : list VipsProgress),
    0 < process_timeout →
    let armed := setup_timeout_handler image process_timeout in
    let timeout := length (cells image) in
    let final := eval_ticks armed timeout ticks in
    last (eval_handlers armed) = Some timeout
    ∧ (Exists (λ p, process_timeout <= run p) ticks →
       kill final = true
       ∧ (∃ line, error_log final = error_log image ++ [line])
       ∧ cells final !! timeout = Some 0)
    ∧ (Forall (λ p, run p < process_timeout) ticks →
       final = armed ∧ kill final = kill image
       ∧ error_log final = error_log image).
Proof.
  intros image t ticks Ht armed timeout final.
  assert (Harmed := setup_timeout_handler_positive image t Ht). fold armed in Harmed.
  assert (Hcell : cells armed !! timeout = Some t).
  { rewrite Harmed. cbn [cells]. unfold timeout.
    rewrite lookup_app_r by lia. rewrite Nat.sub_diag. reflexivity. }
  split; [rewrite Harmed; cbn [eval_handlers]; apply last_snoc|]. split.
  - intros Hex. destruct (first_reaching t ticks Hex) as (before & p & after & -> & Hb & Hp).
    unfold final, eval_ticks. rewrite foldl_app. fold (eval_ticks armed timeout before).
    rewrite (eval_ticks_quiet armed timeout t before Hcell (or_introl Hb)).
    cbn [foldl]. fold (eval_ticks (image_eval_cb armed p timeout) timeout after).
    assert (Hzero : cells (image_eval_cb armed p timeout) !! timeout = Some 0).
    { rewrite (image_eval_cb_trip armed p timeout t Hcell Ht Hp). cbn [cells].
      apply list_lookup_insert_eq, lookup_lt_is_Some. eauto. }
    rewrite (eval_ticks_quiet _ timeout 0 after Hzero) by (right; lia).
    split; [|split; [|exact Hzero]].
    + rewrite (image_eval_cb_trip armed p timeout t Hcell Ht Hp). reflexivity.
    + rewrite (image_eval_cb_trip armed p timeout t Hcell Ht Hp). cbn [error_log].
      rewrite Harmed. cbn [error_log]. eexists. reflexivity.
  - intros Hall. unfold final.
    rewrite (eval_ticks_quiet armed timeout t ticks Hcell (or_introl Hall)).
    rewrite Harmed. repeat split.
Qed.

Lemma setup_then_eval_witness :
  kill (eval_ticks (setup_timeout_handler (mkImage false false [] [] []) 2) 0
          [mkProgress 1 10; mkProgress 2 40; mkProgress 3 80]) = true.
Proof.
  assert (Ht : 0 < 2) by lia.
  refine (proj1 (proj1 (proj2 (setup_then_eval (mkImage false false [] [] []) 2
                                 [mkProgress 1 10; mkProgress 2 40; mkProgress 3 80]
                                 Ht)) _)).
  apply Exists_cons_tl, Exists_cons_hd. cbn. lia.
Defined.

(** ** Descriptive document, errors and raw strings *)

Lemma concat_contains (sep : string) (l : list string) (x : string) :
  In x l → contains (String.concat sep l) x.
Proof.
  induction l as [|y l IH]; intros Hin; [destruct Hin|].
  destruct l as [|z l].
  - destruct Hin as [->|[]]. exists EmptyString, EmptyString.
    cbn. rewrite string_app_nil_r. reflexivity.
  - change (String.concat sep (y :: z :: l))
      with (y +:+ sep +:+ String.concat sep (z :: l)).
    destruct Hin as [->|Hin].
    + exists EmptyString, (sep +:+ String.concat sep (z :: l)). reflexivity.
    + destruct (IH Hin) as (before & after & ->).
      exists (y +:+ sep +:+ before), after. rewrite !string_app_assoc. reflexivity.
Qed.

Section IntrospectorMore.

Variable cast_overflow : spec_float → Z.

Ltac guard_inv H name :=
  match type of H with
  | (if ?c then ?get ≫= _ else _) = Some _ =>
      assert (name : c = true → is_Some get)
        by (let Hc := fresh in
            intros Hc; rewrite Hc in H; destruct get; [eauto|discriminate H]);
      clear H
  end.

(** X21. [image_to_json] throws exactly when a tag it reads is present
    and the typed accessor reading it fails ([get_int] for the palette
    depth, page count, page height, loop count, primary page and
    orientation, [get_string] for the chroma subsampling,
    [get_array_int] for the delays); a missing tag is never an error. *)
Theorem image_to_json_returns_iff :
  ∀ (image : Header.t) (image_type : ImageType.t),
    is_Some (image_to_json cast_overflow image image_type) ↔ well_typed image.
Proof.
  intros image image_type. split; [|apply image_to_json_returns].
  intros [doc H]. unfold image_to_json in H. cbv zeta in H.
  apply bind_Some in H as (json1 & H1 & H). guard_inv H1 Hchroma.
  apply bind_Some in H as (json2 & H2 & H). guard_inv H2 Hpalette.
  apply bind_Some in H as (json3 & H3 & H). guard_inv H3 Hpages.
  apply bind_Some in H as (json4 & H4 & H). guard_inv H4 Hheight.
  apply bind_Some in H as (json5 & H5 & H). guard_inv H5 Hloop.
  apply bind_Some in H as (json6 & H6 & H). guard_inv H6 Hdelay.
  apply bind_Some in H as (json7 & H7 & H). guard_inv H7 Hprimary.
  apply bind_Some in H as (orientation & Ho & _).
  split; [|split; assumption].
  intros name Hname Htype. apply list_elem_of_In in Hname. cbn [In] in Hname.
  destruct Hname as [<-|[<-|[<-|[<-|[<-|[<-|[]]]]]]]; auto.
  unfold exif_orientation in Ho. rewrite Htype in Ho. eauto.
Qed.

(** X22. String values go into the document as they are, with no
    escaping: the chroma subsampling tag and the interpretation nickname
    appear verbatim between two double quotes, whatever characters they
    hold. *)
Theorem image_to_json_raw_strings :
  ∀ (image : Header.t) (image_type : ImageType.t) (doc : string),
    image_to_json cast_overflow image image_type = Some doc →
    contains doc (key_colon "space" +:+ dq +:+ Header.interpretation_nick image +:+ dq)
    ∧ (∀ s, get_string image "jpeg-chroma-subsample" = Some s →
         contains doc (key_colon "chromaSubsampling" +:+ dq +:+ s +:+ dq)).
Proof.
  intros image image_type doc H.
  assert (Hmember : ∀ k, key_present image k = true →
            contains doc (json_member cast_overflow image image_type k)).
  { intros k Hk. rewrite (image_to_json_members cast_overflow image image_type doc H).
    destruct (concat_contains ","
                (json_member cast_overflow image image_type
                   <$> List.filter (key_present image) json_keys)
                (json_member cast_overflow image image_type k)) as (before & after & ->).
    - apply list_elem_of_In, list_elem_of_fmap_2, list_elem_of_In, List.filter_In.
      split; [destruct k; cbn; tauto|exact Hk].
    - exists ("{" +:+ before), (after +:+ "}"). rewrite !string_app_assoc. reflexivity. }
  split.
  - exact (Hmember KSpace eq_refl).
  - intros s Hs.
    assert (Hk : key_present image KChromaSubsampling = true).
    { cbn [key_present]. unfold get_typeof. unfold get_string in Hs.
      destruct (Header.meta image !! "jpeg-chroma-subsample"); [|discriminate Hs].
      apply bool_decide_eq_true. eauto. }
    pose proof (Hmember KChromaSubsampling Hk) as Hc.
    unfold json_member in Hc. cbn [key_name key_value] in Hc. rewrite Hs in Hc.
    exact Hc.
Qed.

End IntrospectorMore.

Lemma image_to_json_raw_strings_witness :
  contains
    (with_dquotes
       "{'format':'gif','width':30,'height':120,'space':'srgb','channels':4,'depth':'uchar','density':76,'isProgressive':false,'delay':[100,100,40],'hasProfile':false,'hasAlpha':true,'orientation':0}")
    (key_colon "space" +:+ dq +:+ Header.interpretation_nick animation +:+ dq).
Proof.
  refine (proj1 (image_to_json_raw_strings (λ _, Int.min_int) animation ImageType.Gif
                   _ _)).
  vm_compute. reflexivity.
Defined.
